(** * Image downloader extension: queue manager, content scanner, resolver

    A shallow embedding of the scheduling core of the extension
    ([src/lib/queue-manager.js]), of the filtering half of the content
    scanner ([src/content/scanner.js]) and of the remote-URL resolver
    ([AdvancedImageExtractor.handleRemoteUrl]), with the properties the
    specification states about them.

    Conventions of the embedding:
    - a JavaScript number that the code only uses as an integer (sizes in
      pixels, priorities, counters, millisecond timestamps) is a [Z];
    - a JavaScript object that is shared by reference and mutated (a queue
      item, a queue) lives in a heap, a list indexed by its reference;
    - a [Map] is an association list in insertion order, a [Set] a
      duplicate-free list in insertion order;
    - a method that can throw returns a [Result] next to the state that the
      manager is left in when the exception leaves the method;
    - [Date.now()] reads a clock that stands still during a synchronous call
      and advances between the turns of the event loop. *)

From stdpp Require Import base tactics option list strings pretty numbers gmap.
From stdpp Require Import sorting.
From Stdlib Require Import Ascii QArith_base.

Set Warnings "-clear-no-such-hyp".

Local Open Scope string_scope.
Local Open Scope list_scope.
Local Open Scope Z_scope.

(** ** [Array.prototype.sort] *)

(** [arr.sort(cmp)] is a stable sort: [cmp a b > 0] places [a] after [b],
    and elements that compare as [<= 0] keep their relative order.  For a
    comparator that is a total preorder, which is the case of every
    comparator of this code base on integer fields, the result does not
    depend on the engine's algorithm; it is computed here by insertion from
    the right. *)
Section JsSort.
Context {A : Type} (cmp : A → A → Z).

Fixpoint sort_insert (x : A) (l : list A) : list A :=
  match l with
  | [] => [x]
  | y :: l' => if decide (0 < cmp x y) then y :: sort_insert x l' else x :: l
  end.

Definition js_sort (l : list A) : list A := foldr sort_insert [] l.

(** The order a comparator induces: [a] may stand before [b]. *)
Definition cmp_le (a b : A) : Prop := cmp a b ≤ 0.

Lemma sort_insert_perm x l : sort_insert x l ≡ₚ x :: l.
Proof.
  induction l as [|y l IH]; simpl; [done|].
  case_decide; [|done].
  rewrite IH. apply Permutation_swap.
Qed.

Lemma js_sort_perm l : js_sort l ≡ₚ l.
Proof.
  induction l as [|x l IH]; simpl; [done|].
  by rewrite sort_insert_perm, IH.
Qed.

Lemma elem_of_js_sort x l : x ∈ js_sort l ↔ x ∈ l.
Proof. by rewrite js_sort_perm. Qed.

(** A consistent comparator: antisymmetric in sign and transitive. *)
Class Consistent := {
  cmp_flip a b : 0 < cmp a b → cmp b a ≤ 0;
  cmp_trans a b c : cmp a b ≤ 0 → cmp b c ≤ 0 → cmp a c ≤ 0
}.

Context `{!Consistent}.

Lemma sort_insert_sorted x l :
  StronglySorted cmp_le l → StronglySorted cmp_le (sort_insert x l).
Proof.
  induction 1 as [|y l Hl IH Hy]; simpl.
  - repeat constructor.
  - case_decide as Hxy.
    + constructor; [done|].
      rewrite sort_insert_perm. constructor; [|done].
      by apply cmp_flip.
    + constructor; [by constructor|].
      assert (cmp_le x y) by (unfold cmp_le; lia).
      constructor; [done|].
      eapply Forall_impl; [exact Hy|].
      intros z Hz. by eapply cmp_trans.
Qed.

Lemma js_sort_sorted l : StronglySorted cmp_le (js_sort l).
Proof.
  induction l as [|x l IH]; simpl; [constructor|].
  by apply sort_insert_sorted.
Qed.
End JsSort.

Lemma StronglySorted_mono {A} (R1 R2 : relation A) l :
  (∀ a b, R1 a b → R2 a b) → StronglySorted R1 l → StronglySorted R2 l.
Proof.
  intros HR. induction 1 as [|x l _ IH Hx]; constructor; [done|].
  eapply Forall_impl; [exact Hx|]. intros y. apply HR.
Qed.

(** Sorting references by a comparator on what they point to is sorting the
    pointed-to values. *)
Lemma sort_insert_fmap {A B} (f : A → B) (cmp : B → B → Z) x l :
  f <$> sort_insert (λ a b, cmp (f a) (f b)) x l = sort_insert cmp (f x) (f <$> l).
Proof.
  induction l as [|y l IH]; csimpl; [done|].
  destruct (decide (0 < cmp (f x) (f y))); csimpl; [|done].
  by rewrite IH.
Qed.

Lemma js_sort_fmap {A B} (f : A → B) (cmp : B → B → Z) l :
  f <$> js_sort (λ a b, cmp (f a) (f b)) l = js_sort cmp (f <$> l).
Proof.
  induction l as [|x l IH]; csimpl; [done|].
  by rewrite sort_insert_fmap, IH.
Qed.

(** ** The queue manager ([src/lib/queue-manager.js]) *)
Module QueueManager.

(** *** Data model *)

(** [item.status] and [queue.status]. *)
Inductive ItemStatus := IPending | IDownloading | ICompleted | IFailed.
Inductive QueueStatus := QCreated | QRunning | QPaused | QStopped | QCompleted.

#[global] Instance ItemStatus_eq_dec : EqDecision ItemStatus.
Proof. solve_decision. Defined.
#[global] Instance QueueStatus_eq_dec : EqDecision QueueStatus.
Proof. solve_decision. Defined.

Record ItemProgress := {
  ip_downloaded : Z; ip_total : Z; ip_percentage : Z; ip_speed : Z
}.

(** What [executeDownload] resolves with; [finalSize] may be missing. *)
Record DownloadResult := { finalSize : option Z }.

(** An element of the [items] argument of [addToQueue].  Its own [id] and
    [queueId], when present, win over the generated ones (the spread comes
    after them), every other field below is overwritten. *)
Record RawItem := {
  raw_id : option string;
  raw_queueId : option string;
  raw_url : string;
  raw_filename : string;
  raw_estimatedSize : option Z;
  raw_priority : option Z
}.

Record QueueItem := {
  item_id : string;
  item_queueId : string;
  item_url : string;
  item_filename : string;
  item_estimatedSize : option Z;
  item_status : ItemStatus;
  item_priority : Z;
  item_attempts : Z;
  item_addedAt : Z;
  item_startedAt : option Z;
  item_completedAt : option Z;
  item_failedAt : option Z;
  item_error : option string;
  item_progress : ItemProgress;
  item_downloadResult : option DownloadResult
}.

#[global] Instance QueueItem_inhabited : Inhabited QueueItem :=
  populate {| item_id := ""; item_queueId := ""; item_url := ""; item_filename := "";
              item_estimatedSize := None; item_status := IPending; item_priority := 0;
              item_attempts := 0; item_addedAt := 0; item_startedAt := None;
              item_completedAt := None; item_failedAt := None; item_error := None;
              item_progress := {| ip_downloaded := 0; ip_total := 0;
                                  ip_percentage := 0; ip_speed := 0 |};
              item_downloadResult := None |}.

Record QueueOptions := {
  opt_priority : Z;
  opt_concurrentLimit : Z;
  opt_retryAttempts : Z;
  opt_retryDelay : Z;
  opt_autoStart : bool
}.

(** The [options] argument of [createQueue]: any subset of the options. *)
Record QueueOptionsInput := {
  in_priority : option Z;
  in_concurrentLimit : option Z;
  in_retryAttempts : option Z;
  in_retryDelay : option Z;
  in_autoStart : option bool
}.

Record QueueProgress := {
  qp_total : Z; qp_completed : Z; qp_failed : Z; qp_inProgress : Z
}.

Record QueueStatistics := {
  qs_createdAt : Z;
  qs_startedAt : option Z;
  qs_completedAt : option Z;
  qs_totalSize : Z;
  qs_downloadedSize : Z
}.

(** An entry of [queue.failedItems]: a copy of the item as it was. *)
Record FailedRecord := {
  fr_item : QueueItem; fr_error : string; fr_timestamp : Z
}.

(** A queue object.  [queue_items] holds references into the item heap;
    [queue_activeDownloads] is the [Set] of item ids; [queue_retryQueue] is
    created empty and never written by the code.  The floating-point
    statistics ([percentage], [averageSpeed], [estimatedTimeRemaining]) and
    the three callbacks of the options are left out. *)
Record Queue := {
  queue_id : string;
  queue_options : QueueOptions;
  queue_items : list nat;
  queue_status : QueueStatus;
  queue_pauseReason : option string;
  queue_progress : QueueProgress;
  queue_statistics : QueueStatistics;
  queue_activeDownloads : list string;
  queue_failedItems : list FailedRecord;
  queue_retryQueue : list nat
}.

#[global] Instance Queue_inhabited : Inhabited Queue :=
  populate {| queue_id := "";
              queue_options := {| opt_priority := 0; opt_concurrentLimit := 0;
                                  opt_retryAttempts := 0; opt_retryDelay := 0;
                                  opt_autoStart := false |};
              queue_items := []; queue_status := QCreated; queue_pauseReason := None;
              queue_progress := {| qp_total := 0; qp_completed := 0; qp_failed := 0;
                                   qp_inProgress := 0 |};
              queue_statistics := {| qs_createdAt := 0; qs_startedAt := None;
                                     qs_completedAt := None; qs_totalSize := 0;
                                     qs_downloadedSize := 0 |};
              queue_activeDownloads := []; queue_failedItems := [];
              queue_retryQueue := [] |}.

(** A queue as [JSON.stringify] writes it and [JSON.parse] reads it back:
    the items by value. *)
Record QueueData := {
  qd_queue : Queue;
  qd_items : list QueueItem
}.

(** What [saveDownloadQueue] leaves under the [downloadQueue] key: the
    queues, and the [_expires] stamp that [AdvancedStorageManager.set] adds
    for the [expire] option. *)
Record StoredQueues := {
  stored_data : list QueueData;
  stored_expires : Z
}.

Record Settings := {
  maxConcurrentDownloads : Z;
  maxQueueSize : Z;
  retryAttempts : Z;
  retryDelay : Z;
  autoResume : bool;
  persistQueue : bool
}.

Record Statistics := {
  totalQueued : Z;
  totalCompleted : Z;
  totalFailed : Z;
  totalRetried : Z;
  peakConcurrency : Z
}.

(** A pending [setTimeout]: the retry callback of [scheduleRetry] closes over
    the item and the queue, the one of [completeQueue] over the queue. *)
Inductive TimerAction :=
  | RetryTimer (item queue : nat)
  | ArchiveTimer (queue : nat).

Record Timer := { timer_action : TimerAction; timer_delay : Z; timer_setAt : Z }.

(** A [processQueue] call suspended at [await this.startDownload(item, queue)]:
    the item whose download is in flight and the rest of [pendingItems]. *)
Record Task := { task_queue : nat; task_item : nat; task_rest : list nat }.

(** What [notifyQueueEvent] and [notifyItemEvent] send out. *)
Inductive Notification :=
  | QueueEvent (type queueId : string)
  | ItemEvent (type : string) (item : nat) (itemId queueId : string).

(** The manager, with the part of the browser it reads: the clock
    ([Date.now()]), [navigator.onLine], [document.hidden], the pending timers
    and suspended tasks of the event loop, and the stored value of the
    [downloadQueue] key behind [persistenceManager]. *)
Record Manager := {
  itemHeap : list QueueItem;
  queueHeap : list Queue;
  queues : list (string * nat);
  activeDownloads : list (string * (nat * nat));
  pausedQueues : list string;
  completedQueues : list (string * nat);
  settings : Settings;
  statistics : Statistics;
  persistenceManager : option (option StoredQueues);
  timers : list Timer;
  tasks : list Task;
  events : list Notification;
  now : Z;
  onLine : bool;
  hidden : bool
}.

(** [new IntelligentQueueManager()], before [init]. *)
Definition newManager (clock : Z) : Manager := {|
  itemHeap := []; queueHeap := []; queues := []; activeDownloads := [];
  pausedQueues := []; completedQueues := [];
  settings := {| maxConcurrentDownloads := 3; maxQueueSize := 1000;
                 retryAttempts := 3; retryDelay := 1000;
                 autoResume := true; persistQueue := true |};
  statistics := {| totalQueued := 0; totalCompleted := 0; totalFailed := 0;
                   totalRetried := 0; peakConcurrency := 0 |};
  persistenceManager := None;
  timers := []; tasks := []; events := [];
  now := clock; onLine := true; hidden := false
|}.

(** *** Field updates

    [set_f v r] is the record [r] after the assignment [r.f = v]. *)
Definition set_item_status v (it : QueueItem) : QueueItem :=
  {| item_id := item_id it; item_queueId := item_queueId it; item_url := item_url it;
     item_filename := item_filename it; item_estimatedSize := item_estimatedSize it;
     item_status := v; item_priority := item_priority it;
     item_attempts := item_attempts it; item_addedAt := item_addedAt it;
     item_startedAt := item_startedAt it; item_completedAt := item_completedAt it;
     item_failedAt := item_failedAt it; item_error := item_error it;
     item_progress := item_progress it;
     item_downloadResult := item_downloadResult it |}.
Definition set_item_attempts v (it : QueueItem) : QueueItem :=
  {| item_id := item_id it; item_queueId := item_queueId it; item_url := item_url it;
     item_filename := item_filename it; item_estimatedSize := item_estimatedSize it;
     item_status := item_status it; item_priority := item_priority it;
     item_attempts := v; item_addedAt := item_addedAt it;
     item_startedAt := item_startedAt it; item_completedAt := item_completedAt it;
     item_failedAt := item_failedAt it; item_error := item_error it;
     item_progress := item_progress it;
     item_downloadResult := item_downloadResult it |}.
Definition set_item_startedAt v (it : QueueItem) : QueueItem :=
  {| item_id := item_id it; item_queueId := item_queueId it; item_url := item_url it;
     item_filename := item_filename it; item_estimatedSize := item_estimatedSize it;
     item_status := item_status it; item_priority := item_priority it;
     item_attempts := item_attempts it; item_addedAt := item_addedAt it;
     item_startedAt := v; item_completedAt := item_completedAt it;
     item_failedAt := item_failedAt it; item_error := item_error it;
     item_progress := item_progress it;
     item_downloadResult := item_downloadResult it |}.
Definition set_item_completedAt v (it : QueueItem) : QueueItem :=
  {| item_id := item_id it; item_queueId := item_queueId it; item_url := item_url it;
     item_filename := item_filename it; item_estimatedSize := item_estimatedSize it;
     item_status := item_status it; item_priority := item_priority it;
     item_attempts := item_attempts it; item_addedAt := item_addedAt it;
     item_startedAt := item_startedAt it; item_completedAt := v;
     item_failedAt := item_failedAt it; item_error := item_error it;
     item_progress := item_progress it;
     item_downloadResult := item_downloadResult it |}.
Definition set_item_failedAt v (it : QueueItem) : QueueItem :=
  {| item_id := item_id it; item_queueId := item_queueId it; item_url := item_url it;
     item_filename := item_filename it; item_estimatedSize := item_estimatedSize it;
     item_status := item_status it; item_priority := item_priority it;
     item_attempts := item_attempts it; item_addedAt := item_addedAt it;
     item_startedAt := item_startedAt it; item_completedAt := item_completedAt it;
     item_failedAt := v; item_error := item_error it;
     item_progress := item_progress it;
     item_downloadResult := item_downloadResult it |}.
Definition set_item_error v (it : QueueItem) : QueueItem :=
  {| item_id := item_id it; item_queueId := item_queueId it; item_url := item_url it;
     item_filename := item_filename it; item_estimatedSize := item_estimatedSize it;
     item_status := item_status it; item_priority := item_priority it;
     item_attempts := item_attempts it; item_addedAt := item_addedAt it;
     item_startedAt := item_startedAt it; item_completedAt := item_completedAt it;
     item_failedAt := item_failedAt it; item_error := v;
     item_progress := item_progress it;
     item_downloadResult := item_downloadResult it |}.
Definition set_item_downloadResult v (it : QueueItem) : QueueItem :=
  {| item_id := item_id it; item_queueId := item_queueId it; item_url := item_url it;
     item_filename := item_filename it; item_estimatedSize := item_estimatedSize it;
     item_status := item_status it; item_priority := item_priority it;
     item_attempts := item_attempts it; item_addedAt := item_addedAt it;
     item_startedAt := item_startedAt it; item_completedAt := item_completedAt it;
     item_failedAt := item_failedAt it; item_error := item_error it;
     item_progress := item_progress it; item_downloadResult := v |}.
Definition set_qp_total v (p : QueueProgress) : QueueProgress :=
  {| qp_total := v; qp_completed := qp_completed p; qp_failed := qp_failed p;
     qp_inProgress := qp_inProgress p |}.
Definition set_qp_completed v (p : QueueProgress) : QueueProgress :=
  {| qp_total := qp_total p; qp_completed := v; qp_failed := qp_failed p;
     qp_inProgress := qp_inProgress p |}.
Definition set_qp_failed v (p : QueueProgress) : QueueProgress :=
  {| qp_total := qp_total p; qp_completed := qp_completed p; qp_failed := v;
     qp_inProgress := qp_inProgress p |}.
Definition set_qp_inProgress v (p : QueueProgress) : QueueProgress :=
  {| qp_total := qp_total p; qp_completed := qp_completed p; qp_failed := qp_failed p;
     qp_inProgress := v |}.
Definition set_qs_startedAt v (s : QueueStatistics) : QueueStatistics :=
  {| qs_createdAt := qs_createdAt s; qs_startedAt := v;
     qs_completedAt := qs_completedAt s; qs_totalSize := qs_totalSize s;
     qs_downloadedSize := qs_downloadedSize s |}.
Definition set_qs_completedAt v (s : QueueStatistics) : QueueStatistics :=
  {| qs_createdAt := qs_createdAt s; qs_startedAt := qs_startedAt s;
     qs_completedAt := v; qs_totalSize := qs_totalSize s;
     qs_downloadedSize := qs_downloadedSize s |}.
Definition set_qs_totalSize v (s : QueueStatistics) : QueueStatistics :=
  {| qs_createdAt := qs_createdAt s; qs_startedAt := qs_startedAt s;
     qs_completedAt := qs_completedAt s; qs_totalSize := v;
     qs_downloadedSize := qs_downloadedSize s |}.
Definition set_qs_downloadedSize v (s : QueueStatistics) : QueueStatistics :=
  {| qs_createdAt := qs_createdAt s; qs_startedAt := qs_startedAt s;
     qs_completedAt := qs_completedAt s; qs_totalSize := qs_totalSize s;
     qs_downloadedSize := v |}.
Definition set_queue_items v (q : Queue) : Queue :=
  {| queue_id := queue_id q; queue_options := queue_options q; queue_items := v;
     queue_status := queue_status q; queue_pauseReason := queue_pauseReason q;
     queue_progress := queue_progress q; queue_statistics := queue_statistics q;
     queue_activeDownloads := queue_activeDownloads q;
     queue_failedItems := queue_failedItems q;
     queue_retryQueue := queue_retryQueue q |}.
Definition set_queue_status v (q : Queue) : Queue :=
  {| queue_id := queue_id q; queue_options := queue_options q;
     queue_items := queue_items q; queue_status := v;
     queue_pauseReason := queue_pauseReason q; queue_progress := queue_progress q;
     queue_statistics := queue_statistics q;
     queue_activeDownloads := queue_activeDownloads q;
     queue_failedItems := queue_failedItems q;
     queue_retryQueue := queue_retryQueue q |}.
Definition set_queue_pauseReason v (q : Queue) : Queue :=
  {| queue_id := queue_id q; queue_options := queue_options q;
     queue_items := queue_items q; queue_status := queue_status q;
     queue_pauseReason := v; queue_progress := queue_progress q;
     queue_statistics := queue_statistics q;
     queue_activeDownloads := queue_activeDownloads q;
     queue_failedItems := queue_failedItems q;
     queue_retryQueue := queue_retryQueue q |}.
Definition set_queue_progress v (q : Queue) : Queue :=
  {| queue_id := queue_id q; queue_options := queue_options q;
     queue_items := queue_items q; queue_status := queue_status q;
     queue_pauseReason := queue_pauseReason q; queue_progress := v;
     queue_statistics := queue_statistics q;
     queue_activeDownloads := queue_activeDownloads q;
     queue_failedItems := queue_failedItems q;
     queue_retryQueue := queue_retryQueue q |}.
Definition set_queue_statistics v (q : Queue) : Queue :=
  {| queue_id := queue_id q; queue_options := queue_options q;
     queue_items := queue_items q; queue_status := queue_status q;
     queue_pauseReason := queue_pauseReason q; queue_progress := queue_progress q;
     queue_statistics := v; queue_activeDownloads := queue_activeDownloads q;
     queue_failedItems := queue_failedItems q;
     queue_retryQueue := queue_retryQueue q |}.
Definition set_queue_activeDownloads v (q : Queue) : Queue :=
  {| queue_id := queue_id q; queue_options := queue_options q;
     queue_items := queue_items q; queue_status := queue_status q;
     queue_pauseReason := queue_pauseReason q; queue_progress := queue_progress q;
     queue_statistics := queue_statistics q; queue_activeDownloads := v;
     queue_failedItems := queue_failedItems q;
     queue_retryQueue := queue_retryQueue q |}.
Definition set_queue_failedItems v (q : Queue) : Queue :=
  {| queue_id := queue_id q; queue_options := queue_options q;
     queue_items := queue_items q; queue_status := queue_status q;
     queue_pauseReason := queue_pauseReason q; queue_progress := queue_progress q;
     queue_statistics := queue_statistics q;
     queue_activeDownloads := queue_activeDownloads q; queue_failedItems := v;
     queue_retryQueue := queue_retryQueue q |}.
Definition set_totalQueued v (s : Statistics) : Statistics :=
  {| totalQueued := v; totalCompleted := totalCompleted s;
     totalFailed := totalFailed s; totalRetried := totalRetried s;
     peakConcurrency := peakConcurrency s |}.
Definition set_totalCompleted v (s : Statistics) : Statistics :=
  {| totalQueued := totalQueued s; totalCompleted := v; totalFailed := totalFailed s;
     totalRetried := totalRetried s; peakConcurrency := peakConcurrency s |}.
Definition set_totalFailed v (s : Statistics) : Statistics :=
  {| totalQueued := totalQueued s; totalCompleted := totalCompleted s;
     totalFailed := v; totalRetried := totalRetried s;
     peakConcurrency := peakConcurrency s |}.
Definition set_totalRetried v (s : Statistics) : Statistics :=
  {| totalQueued := totalQueued s; totalCompleted := totalCompleted s;
     totalFailed := totalFailed s; totalRetried := v;
     peakConcurrency := peakConcurrency s |}.
Definition set_peakConcurrency v (s : Statistics) : Statistics :=
  {| totalQueued := totalQueued s; totalCompleted := totalCompleted s;
     totalFailed := totalFailed s; totalRetried := totalRetried s;
     peakConcurrency := v |}.
Definition set_itemHeap v (m : Manager) : Manager :=
  {| itemHeap := v; queueHeap := queueHeap m; queues := queues m;
     activeDownloads := activeDownloads m; pausedQueues := pausedQueues m;
     completedQueues := completedQueues m; settings := settings m;
     statistics := statistics m; persistenceManager := persistenceManager m;
     timers := timers m; tasks := tasks m; events := events m; now := now m;
     onLine := onLine m; hidden := hidden m |}.
Definition set_queueHeap v (m : Manager) : Manager :=
  {| itemHeap := itemHeap m; queueHeap := v; queues := queues m;
     activeDownloads := activeDownloads m; pausedQueues := pausedQueues m;
     completedQueues := completedQueues m; settings := settings m;
     statistics := statistics m; persistenceManager := persistenceManager m;
     timers := timers m; tasks := tasks m; events := events m; now := now m;
     onLine := onLine m; hidden := hidden m |}.
Definition set_queues v (m : Manager) : Manager :=
  {| itemHeap := itemHeap m; queueHeap := queueHeap m; queues := v;
     activeDownloads := activeDownloads m; pausedQueues := pausedQueues m;
     completedQueues := completedQueues m; settings := settings m;
     statistics := statistics m; persistenceManager := persistenceManager m;
     timers := timers m; tasks := tasks m; events := events m; now := now m;
     onLine := onLine m; hidden := hidden m |}.
Definition set_activeDownloads v (m : Manager) : Manager :=
  {| itemHeap := itemHeap m; queueHeap := queueHeap m; queues := queues m;
     activeDownloads := v; pausedQueues := pausedQueues m;
     completedQueues := completedQueues m; settings := settings m;
     statistics := statistics m; persistenceManager := persistenceManager m;
     timers := timers m; tasks := tasks m; events := events m; now := now m;
     onLine := onLine m; hidden := hidden m |}.
Definition set_pausedQueues v (m : Manager) : Manager :=
  {| itemHeap := itemHeap m; queueHeap := queueHeap m; queues := queues m;
     activeDownloads := activeDownloads m; pausedQueues := v;
     completedQueues := completedQueues m; settings := settings m;
     statistics := statistics m; persistenceManager := persistenceManager m;
     timers := timers m; tasks := tasks m; events := events m; now := now m;
     onLine := onLine m; hidden := hidden m |}.
Definition set_completedQueues v (m : Manager) : Manager :=
  {| itemHeap := itemHeap m; queueHeap := queueHeap m; queues := queues m;
     activeDownloads := activeDownloads m; pausedQueues := pausedQueues m;
     completedQueues := v; settings := settings m; statistics := statistics m;
     persistenceManager := persistenceManager m; timers := timers m; tasks := tasks m;
     events := events m; now := now m; onLine := onLine m; hidden := hidden m |}.
Definition set_statistics v (m : Manager) : Manager :=
  {| itemHeap := itemHeap m; queueHeap := queueHeap m; queues := queues m;
     activeDownloads := activeDownloads m; pausedQueues := pausedQueues m;
     completedQueues := completedQueues m; settings := settings m; statistics := v;
     persistenceManager := persistenceManager m; timers := timers m; tasks := tasks m;
     events := events m; now := now m; onLine := onLine m; hidden := hidden m |}.
Definition set_persistenceManager v (m : Manager) : Manager :=
  {| itemHeap := itemHeap m; queueHeap := queueHeap m; queues := queues m;
     activeDownloads := activeDownloads m; pausedQueues := pausedQueues m;
     completedQueues := completedQueues m; settings := settings m;
     statistics := statistics m; persistenceManager := v; timers := timers m;
     tasks := tasks m; events := events m; now := now m; onLine := onLine m;
     hidden := hidden m |}.
Definition set_timers v (m : Manager) : Manager :=
  {| itemHeap := itemHeap m; queueHeap := queueHeap m; queues := queues m;
     activeDownloads := activeDownloads m; pausedQueues := pausedQueues m;
     completedQueues := completedQueues m; settings := settings m;
     statistics := statistics m; persistenceManager := persistenceManager m;
     timers := v; tasks := tasks m; events := events m; now := now m;
     onLine := onLine m; hidden := hidden m |}.
Definition set_tasks v (m : Manager) : Manager :=
  {| itemHeap := itemHeap m; queueHeap := queueHeap m; queues := queues m;
     activeDownloads := activeDownloads m; pausedQueues := pausedQueues m;
     completedQueues := completedQueues m; settings := settings m;
     statistics := statistics m; persistenceManager := persistenceManager m;
     timers := timers m; tasks := v; events := events m; now := now m;
     onLine := onLine m; hidden := hidden m |}.
Definition set_events v (m : Manager) : Manager :=
  {| itemHeap := itemHeap m; queueHeap := queueHeap m; queues := queues m;
     activeDownloads := activeDownloads m; pausedQueues := pausedQueues m;
     completedQueues := completedQueues m; settings := settings m;
     statistics := statistics m; persistenceManager := persistenceManager m;
     timers := timers m; tasks := tasks m; events := v; now := now m;
     onLine := onLine m; hidden := hidden m |}.
Definition set_now v (m : Manager) : Manager :=
  {| itemHeap := itemHeap m; queueHeap := queueHeap m; queues := queues m;
     activeDownloads := activeDownloads m; pausedQueues := pausedQueues m;
     completedQueues := completedQueues m; settings := settings m;
     statistics := statistics m; persistenceManager := persistenceManager m;
     timers := timers m; tasks := tasks m; events := events m; now := v;
     onLine := onLine m; hidden := hidden m |}.
Definition set_onLine v (m : Manager) : Manager :=
  {| itemHeap := itemHeap m; queueHeap := queueHeap m; queues := queues m;
     activeDownloads := activeDownloads m; pausedQueues := pausedQueues m;
     completedQueues := completedQueues m; settings := settings m;
     statistics := statistics m; persistenceManager := persistenceManager m;
     timers := timers m; tasks := tasks m; events := events m; now := now m;
     onLine := v; hidden := hidden m |}.
Definition set_hidden v (m : Manager) : Manager :=
  {| itemHeap := itemHeap m; queueHeap := queueHeap m; queues := queues m;
     activeDownloads := activeDownloads m; pausedQueues := pausedQueues m;
     completedQueues := completedQueues m; settings := settings m;
     statistics := statistics m; persistenceManager := persistenceManager m;
     timers := timers m; tasks := tasks m; events := events m; now := now m;
     onLine := onLine m; hidden := v |}.

(** *** [Map], [Set] and the two heaps *)

Fixpoint map_get {V} (k : string) (l : list (string * V)) : option V :=
  match l with
  | [] => None
  | (k', v) :: l' => if decide (k' = k) then Some v else map_get k l'
  end.

(** [Map.prototype.set]: an existing key keeps its place in the order. *)
Fixpoint map_set {V} (k : string) (v : V) (l : list (string * V)) : list (string * V) :=
  match l with
  | [] => [(k, v)]
  | (k', v') :: l' => if decide (k' = k) then (k, v) :: l' else (k', v') :: map_set k v l'
  end.

Definition map_delete {V} (k : string) (l : list (string * V)) : list (string * V) :=
  filter (λ kv, kv.1 ≠ k) l.

Definition set_add (k : string) (s : list string) : list string :=
  if decide (k ∈ s) then s else s ++ [k].

Definition set_delete (k : string) (s : list string) : list string :=
  filter (λ k', k' ≠ k) s.

Definition getItem (m : Manager) (r : nat) : QueueItem := itemHeap m !!! r.
Definition getQueueObj (m : Manager) (r : nat) : Queue := queueHeap m !!! r.

Definition updItem (r : nat) (f : QueueItem → QueueItem) (m : Manager) : Manager :=
  set_itemHeap (alter f r (itemHeap m)) m.
Definition updQueue (r : nat) (f : Queue → Queue) (m : Manager) : Manager :=
  set_queueHeap (alter f r (queueHeap m)) m.

(** The items of a queue, by value. *)
Definition itemsOf (m : Manager) (q : Queue) : list QueueItem :=
  getItem m <$> queue_items q.

(** *** Methods that can throw *)

Inductive Result (A : Type) := Ok (a : A) | Throw (e : string).
Arguments Ok {A} a.
Arguments Throw {A} e.

Definition M (A : Type) : Type := Manager → Result A * Manager.

#[global] Instance M_ret : MRet M := λ A a m, (Ok a, m).
#[global] Instance M_bind : MBind M := λ A B k c m,
  match c m with
  | (Ok a, m') => k a m'
  | (Throw e, m') => (Throw e, m')
  end.

Definition throw {A} (e : string) : M A := λ m, (Throw e, m).
Definition modify (f : Manager → Manager) : M unit := λ m, (Ok (), f m).

(** A [for ... of] loop whose body can throw. *)
Fixpoint forEachM {A} (body : A → M unit) (l : list A) : M unit :=
  match l with
  | [] => mret ()
  | x :: l' => body x ;; forEachM body l'
  end.

(** *** Event system *)

Definition notifyQueueEvent (eventType queueId : string) (m : Manager) : Manager :=
  set_events (events m ++ [QueueEvent eventType queueId]) m.

Definition notifyItemEvent (eventType : string) (item queue : nat) (m : Manager) : Manager :=
  set_events (events m ++ [ItemEvent eventType item (item_id (getItem m item))
                                     (queue_id (getQueueObj m queue))]) m.

(** [setTimeout(callback, delay)]. *)
Definition setTimeout (action : TimerAction) (delay : Z) (m : Manager) : Manager :=
  set_timers (timers m ++ [{| timer_action := action; timer_delay := delay;
                              timer_setAt := now m |}]) m.

(** *** Queue utilities *)

Definition getQueue (queueId : string) (m : Manager) : option nat :=
  map_get queueId (queues m).

(** The comparator of [sortQueueByPriority]. *)
Definition byPriorityThenAge (a b : QueueItem) : Z :=
  if decide (item_priority a ≠ item_priority b)
  then item_priority b - item_priority a
  else item_addedAt a - item_addedAt b.

Definition sortQueueByPriority (queue : nat) (m : Manager) : Manager :=
  updQueue queue (λ q,
    set_queue_items
      (js_sort (λ a b, byPriorityThenAge (getItem m a) (getItem m b)) (queue_items q)) q) m.

Definition completeQueue (queue : nat) (m : Manager) : Manager :=
  if decide (queue_status (getQueueObj m queue) = QCompleted) then m
  else
    let m := updQueue queue (λ q,
               set_queue_statistics (set_qs_completedAt (Some (now m)) (queue_statistics q))
                 (set_queue_status QCompleted q)) m in
    let m := notifyQueueEvent "completed" (queue_id (getQueueObj m queue)) m in
    setTimeout (ArchiveTimer queue) 5000 m.

(** *** Queue processing *)

(** [startDownload] up to [await this.executeDownload(item, queue)]. *)
Definition startDownload (item queue : nat) (m : Manager) : Manager :=
  let m := updItem item (λ it,
             set_item_attempts (item_attempts it + 1)
               (set_item_startedAt (Some (now m)) (set_item_status IDownloading it))) m in
  let id := item_id (getItem m item) in
  let m := updQueue queue (λ q,
             set_queue_progress
               (set_qp_inProgress (qp_inProgress (queue_progress q) + 1) (queue_progress q))
               (set_queue_activeDownloads (set_add id (queue_activeDownloads q)) q)) m in
  let m := set_activeDownloads (map_set id (item, queue) (activeDownloads m)) m in
  let totalActive := Z.of_nat (length (activeDownloads m)) in
  let m := if decide (peakConcurrency (statistics m) < totalActive)
           then set_statistics (set_peakConcurrency totalActive (statistics m)) m
           else m in
  notifyItemEvent "started" item queue m.

Definition handleDownloadComplete (item queue : nat) (result : DownloadResult)
    (m : Manager) : Manager :=
  let m := updItem item (λ it,
             set_item_downloadResult (Some result)
               (set_item_completedAt (Some (now m)) (set_item_status ICompleted it))) m in
  let id := item_id (getItem m item) in
  let m := updQueue queue (λ q,
             let p := queue_progress q in
             set_queue_progress
               (set_qp_completed (qp_completed p + 1)
                  (set_qp_inProgress (qp_inProgress p - 1) p))
               (set_queue_activeDownloads (set_delete id (queue_activeDownloads q)) q)) m in
  let m := set_activeDownloads (map_delete id (activeDownloads m)) m in
  let m := set_statistics
             (set_totalCompleted (totalCompleted (statistics m) + 1) (statistics m)) m in
  let m := updQueue queue (λ q,
             let s := queue_statistics q in
             set_queue_statistics
               (set_qs_downloadedSize (qs_downloadedSize s + default 0 (finalSize result)) s)
               q) m in
  notifyItemEvent "completed" item queue m.

Definition scheduleRetry (item queue : nat) (m : Manager) : Manager :=
  let retryDelay := opt_retryDelay (queue_options (getQueueObj m queue))
                    * 2 ^ (item_attempts (getItem m item) - 1) in
  setTimeout (RetryTimer item queue) retryDelay m.

Definition handleDownloadError (item queue : nat) (error : string) (m : Manager) : Manager :=
  let m := updItem item (λ it,
             set_item_failedAt (Some (now m))
               (set_item_error (Some error) (set_item_status IFailed it))) m in
  let id := item_id (getItem m item) in
  let m := updQueue queue (λ q,
             let p := queue_progress q in
             set_queue_progress
               (set_qp_failed (qp_failed p + 1) (set_qp_inProgress (qp_inProgress p - 1) p))
               (set_queue_activeDownloads (set_delete id (queue_activeDownloads q)) q)) m in
  let m := set_activeDownloads (map_delete id (activeDownloads m)) m in
  let m := set_statistics (set_totalFailed (totalFailed (statistics m) + 1) (statistics m)) m in
  let m := updQueue queue (λ q,
             set_queue_failedItems
               (queue_failedItems q ++ [{| fr_item := getItem m item; fr_error := error;
                                           fr_timestamp := now m |}]) q) m in
  let m := if decide (item_attempts (getItem m item)
                      < opt_retryAttempts (queue_options (getQueueObj m queue)))
           then scheduleRetry item queue m
           else m in
  notifyItemEvent "failed" item queue m.

(** The callback that [scheduleRetry] hands to [setTimeout]. *)
Definition retryCallback (item queue : nat) (m : Manager) : Manager :=
  if decide (queue_status (getQueueObj m queue) = QRunning) then
    let m := updItem item (λ it, set_item_error None (set_item_status IPending it)) m in
    let m := set_statistics
               (set_totalRetried (totalRetried (statistics m) + 1) (statistics m)) m in
    notifyItemEvent "retrying" item queue m
  else m.

(** The callback that [completeQueue] hands to [setTimeout]. *)
Definition archiveCallback (queue : nat) (m : Manager) : Manager :=
  let id := queue_id (getQueueObj m queue) in
  set_queues (map_delete id (queues m))
    (set_completedQueues (map_set id queue (completedQueues m)) m).

Definition availableSlots (q : Queue) : Z :=
  opt_concurrentLimit (queue_options q) - Z.of_nat (length (queue_activeDownloads q)).

(** [pendingItems] of [processQueue]: filter, stable sort on priority,
    [slice(0, availableSlots)]. *)
Definition pendingItems (m : Manager) (q : Queue) : list nat :=
  take (Z.to_nat (availableSlots q))
    (js_sort (λ a b, item_priority (getItem m b) - item_priority (getItem m a))
       (filter (λ r, item_status (getItem m r) = IPending) (queue_items q))).

(** [processQueue] up to its first suspension: the selection, and the start
    of the first selected item.  The loop over the other selected items goes
    on in [settle], one item after the download before it has settled. *)
Definition processQueue (queue : nat) (m : Manager) : Manager :=
  let q := getQueueObj m queue in
  if decide (availableSlots q ≤ 0) then m
  else
    match pendingItems m q with
    | [] =>
        if decide (length (queue_activeDownloads q) = 0%nat ∧
                   length (queue_retryQueue q) = 0%nat)
        then completeQueue queue m
        else m
    | item :: rest =>
        let m := startDownload item queue m in
        set_tasks (tasks m ++ [{| task_queue := queue; task_item := item;
                                  task_rest := rest |}]) m
    end.

(** The promise of [executeDownload] settles for the task [t]: the rest of
    [startDownload] runs ([handleDownloadComplete], or [handleDownloadError]
    from the [catch]), then the [for] loop of [processQueue] starts the next
    selected item, without looking at its status again. *)
Definition settle (t : nat) (outcome : DownloadResult + string) (m : Manager) : Manager :=
  match tasks m !! t with
  | None => m
  | Some task =>
      let m := match outcome with
               | inl result => handleDownloadComplete (task_item task) (task_queue task) result m
               | inr error => handleDownloadError (task_item task) (task_queue task) error m
               end in
      match task_rest task with
      | [] => set_tasks (delete t (tasks m)) m
      | item :: rest =>
          let m := startDownload item (task_queue task) m in
          set_tasks (<[t := {| task_queue := task_queue task; task_item := item;
                               task_rest := rest |}]> (tasks m)) m
      end
  end.

(** The timer [k] fires, once its delay has elapsed. *)
Definition fireTimer (k : nat) (m : Manager) : Manager :=
  match timers m !! k with
  | None => m
  | Some t =>
      if decide (timer_setAt t + timer_delay t ≤ now m) then
        let m := set_timers (delete k (timers m)) m in
        match timer_action t with
        | RetryTimer item queue => retryCallback item queue m
        | ArchiveTimer queue => archiveCallback queue m
        end
      else m
  end.

(** *** Queue management *)

Definition startQueue (queueId : string) : M unit := λ m,
  match getQueue queueId m with
  | None => (Throw ("Queue " +:+ queueId +:+ " not found"), m)
  | Some queue =>
      if decide (queue_status (getQueueObj m queue) = QRunning) then (Ok (), m)
      else
        let m := updQueue queue (λ q,
                   set_queue_statistics (set_qs_startedAt (Some (now m)) (queue_statistics q))
                     (set_queue_status QRunning q)) m in
        let m := set_pausedQueues (set_delete queueId (pausedQueues m)) m in
        let m := notifyQueueEvent "started" queueId m in
        (Ok (), processQueue queue m)
  end.

Definition createQueue (queueId : string) (options : QueueOptionsInput) : M string := λ m,
  if decide (is_Some (getQueue queueId m))
  then (Throw ("Queue " +:+ queueId +:+ " already exists"), m)
  else
    let queueOptions := {|
      opt_priority := default 3 (in_priority options);
      opt_concurrentLimit :=
        default (maxConcurrentDownloads (settings m)) (in_concurrentLimit options);
      opt_retryAttempts := default (retryAttempts (settings m)) (in_retryAttempts options);
      opt_retryDelay := default (retryDelay (settings m)) (in_retryDelay options);
      opt_autoStart := default true (in_autoStart options) |} in
    let queue := {|
      queue_id := queueId; queue_options := queueOptions; queue_items := [];
      queue_status := QCreated; queue_pauseReason := None;
      queue_progress := {| qp_total := 0; qp_completed := 0; qp_failed := 0;
                           qp_inProgress := 0 |};
      queue_statistics := {| qs_createdAt := now m; qs_startedAt := None;
                             qs_completedAt := None; qs_totalSize := 0;
                             qs_downloadedSize := 0 |};
      queue_activeDownloads := []; queue_failedItems := []; queue_retryQueue := [] |} in
    let ref := length (queueHeap m) in
    let m := set_queueHeap (queueHeap m ++ [queue]) m in
    let m := set_queues (map_set queueId ref (queues m)) m in
    match (if opt_autoStart queueOptions then startQueue queueId m else (Ok (), m)) with
    | (Throw e, m) => (Throw e, m)
    | (Ok _, m) => (Ok queueId, notifyQueueEvent "created" queueId m)
    end.

(** The queue item that [addToQueue] builds from the [index]-th raw item. *)
Definition mkQueueItem (queueId : string) (q : Queue) (clock : Z) (index : nat)
    (item : RawItem) : QueueItem := {|
  item_id := default (queueId +:+ "_item_" +:+ pretty clock +:+ "_" +:+ pretty index)
                     (raw_id item);
  item_queueId := default queueId (raw_queueId item);
  item_url := raw_url item;
  item_filename := raw_filename item;
  item_estimatedSize := raw_estimatedSize item;
  item_status := IPending;
  item_priority := match raw_priority item with
                   | Some p => if decide (p = 0) then opt_priority (queue_options q) else p
                   | None => opt_priority (queue_options q)
                   end;
  item_attempts := 0;
  item_addedAt := clock;
  item_startedAt := None;
  item_completedAt := None;
  item_error := None;
  item_failedAt := None;
  item_progress := {| ip_downloaded := 0; ip_total := default 0 (raw_estimatedSize item);
                      ip_percentage := 0; ip_speed := 0 |};
  item_downloadResult := None
|}.

Definition sumEstimatedSize (l : list QueueItem) : Z :=
  foldl (λ sum it, sum + default 0 (item_estimatedSize it)) 0 l.

Definition addToQueue (queueId : string) (items : list RawItem) : M (list string) := λ m,
  match getQueue queueId m with
  | None => (Throw ("Queue " +:+ queueId +:+ " not found"), m)
  | Some queue =>
      let q := getQueueObj m queue in
      let queueItems := imap (mkQueueItem queueId q (now m)) items in
      if decide (maxQueueSize (settings m)
                 < Z.of_nat (length (queue_items q)) + Z.of_nat (length queueItems))
      then (Throw ("Queue size limit exceeded (" +:+ pretty (maxQueueSize (settings m))
                     +:+ ")"), m)
      else
        let refs := seq (length (itemHeap m)) (length queueItems) in
        let m := set_itemHeap (itemHeap m ++ queueItems) m in
        let m := updQueue queue (λ q,
                   set_queue_statistics
                     (set_qs_totalSize (qs_totalSize (queue_statistics q)
                                        + sumEstimatedSize queueItems) (queue_statistics q))
                     (set_queue_progress
                        (set_qp_total (qp_total (queue_progress q)
                                       + Z.of_nat (length queueItems)) (queue_progress q))
                        (set_queue_items (queue_items q ++ refs) q))) m in
        let m := sortQueueByPriority queue m in
        let m := set_statistics
                   (set_totalQueued (totalQueued (statistics m)
                                     + Z.of_nat (length queueItems)) (statistics m)) m in
        let m := notifyQueueEvent "itemsAdded" queueId m in
        (Ok (item_id <$> queueItems), m)
  end.

(** [cancelDownload] only writes to the console. *)
Definition cancelDownload (downloadId : string) (m : Manager) : Manager := m.

Definition pauseQueue (queueId reason : string) : M unit := λ m,
  match getQueue queueId m with
  | None => (Throw ("Queue " +:+ queueId +:+ " not found"), m)
  | Some queue =>
      let m := updQueue queue (λ q,
                 set_queue_pauseReason (Some reason) (set_queue_status QPaused q)) m in
      let m := set_pausedQueues (set_add queueId (pausedQueues m)) m in
      let m := foldl (λ m id, cancelDownload id m) m
                 (queue_activeDownloads (getQueueObj m queue)) in
      (Ok (), notifyQueueEvent "paused" queueId m)
  end.

Definition resumeQueue (queueId : string) : M unit := λ m,
  match getQueue queueId m with
  | None => (Throw ("Queue " +:+ queueId +:+ " not found"), m)
  | Some queue =>
      if decide (queue_status (getQueueObj m queue) ≠ QPaused) then (Ok (), m)
      else
        let m := updQueue queue (λ q,
                   set_queue_pauseReason None (set_queue_status QRunning q)) m in
        let m := set_pausedQueues (set_delete queueId (pausedQueues m)) m in
        let m := foldl (λ m r,
                   if decide (item_status (getItem m r) = IDownloading)
                   then updItem r (set_item_status IPending) m else m)
                   m (queue_items (getQueueObj m queue)) in
        (Ok (), notifyQueueEvent "resumed" queueId m)
  end.

Definition stopQueue (queueId : string) : M unit := λ m,
  match getQueue queueId m with
  | None => (Throw ("Queue " +:+ queueId +:+ " not found"), m)
  | Some queue =>
      let m := updQueue queue (set_queue_status QStopped) m in
      let m := set_pausedQueues (set_delete queueId (pausedQueues m)) m in
      let m := foldl (λ m id, cancelDownload id m) m
                 (queue_activeDownloads (getQueueObj m queue)) in
      let m := updQueue queue (set_queue_activeDownloads []) m in
      (Ok (), notifyQueueEvent "stopped" queueId m)
  end.

(** *** Batch operations *)

Definition pauseAllQueues (reason : string) : M unit := λ m,
  forEachM (λ queueId m,
    if decide (queueId ∈ pausedQueues m) then (Ok (), m) else pauseQueue queueId reason m)
    (fst <$> queues m) m.

(** The [reason] argument is not read by the method. *)
Definition resumeAllQueues (reason : string) : M unit := λ m,
  forEachM resumeQueue (pausedQueues m) m.

(** *** Network and visibility handling *)

Definition handleNetworkChange (isOnline : bool) : M unit := λ m,
  if isOnline then
    if autoResume (settings m) then resumeAllQueues "network" m else (Ok (), m)
  else pauseAllQueues "network" m.

(** The [visibilitychange] listener of [setupEventListeners]. *)
Definition onVisibilityChange : M unit := λ m,
  if hidden m then pauseAllQueues "visibility" m else resumeAllQueues "visibility" m.

(** *** Persistence *)

(** The [expire] option of [saveDownloadQueue]: seven days, in
    milliseconds. *)
Definition expire : Z := 7 * 24 * 60 * 60 * 1000.

(** [saveDownloadQueue] serialises its argument with [JSON.stringify] and
    [getDownloadQueue] parses it back: on the records of this model the
    round trip is the identity.  [getDownloadQueue] answers [[]] when
    nothing is stored, and also when the stored value has expired at
    [clock], in which case [AdvancedStorageManager.get] removes it.  The
    result comes with what is stored afterwards. *)
Definition getDownloadQueue (store : option StoredQueues) (clock : Z) :
    list QueueData * option StoredQueues :=
  match store with
  | None => ([], None)
  | Some stored =>
      if decide (stored_expires stored ≠ 0 ∧ stored_expires stored < clock)
      then ([], None)
      else (stored_data stored, store)
  end.

(** [{ ...queue, activeDownloads: [] }], as it is serialised. *)
Definition snapshot (m : Manager) (queue : nat) : QueueData :=
  let q := getQueueObj m queue in
  {| qd_queue := set_queue_activeDownloads [] q; qd_items := itemsOf m q |}.

(** [writeOk] tells whether the storage accepts the write; a failed write is
    caught and logged. *)
Definition persistQueues (writeOk : bool) (m : Manager) : Manager :=
  match persistenceManager m with
  | None => m
  | Some store =>
      let queuesToSave := snapshot m <$> (snd <$> queues m) in
      if writeOk
      then set_persistenceManager
             (Some (Some {| stored_data := queuesToSave;
                            stored_expires := now m + expire |})) m
      else m
  end.

(** One iteration of the loop of [loadPersistedQueues]. *)
Definition restoreQueue (queueData : QueueData) (m : Manager) : Manager :=
  let refs := seq (length (itemHeap m)) (length (qd_items queueData)) in
  let m := set_itemHeap (itemHeap m ++ qd_items queueData) m in
  let queue := set_queue_status QPaused
                 (set_queue_activeDownloads [] (set_queue_items refs (qd_queue queueData))) in
  let m := foldl (λ m r,
             if decide (item_status (getItem m r) = IDownloading)
             then updItem r (set_item_status IPending) m else m) m refs in
  let ref := length (queueHeap m) in
  let m := set_queueHeap (queueHeap m ++ [queue]) m in
  let m := set_queues (map_set (queue_id queue) ref (queues m)) m in
  set_pausedQueues (set_add (queue_id queue) (pausedQueues m)) m.

Definition loadPersistedQueues (m : Manager) : Manager :=
  match persistenceManager m with
  | None => m
  | Some store =>
      let '(savedQueues, store) := getDownloadQueue store (now m) in
      foldl (λ m queueData, restoreQueue queueData m)
        (set_persistenceManager (Some store) m) savedQueues
  end.

(** [init], with the value of [window.advancedStorageManager]. *)
Definition init (storageManager : option (option StoredQueues)) (m : Manager) : Manager :=
  match storageManager with
  | Some store =>
      if persistQueue (settings m)
      then loadPersistedQueues (set_persistenceManager (Some store) m)
      else m
  | None => m
  end.

(** A restart of the extension: a new manager over the same storage. *)
Definition restart (m : Manager) : Manager :=
  init (persistenceManager m) (newManager (now m)).

(** *** The event loop *)

(** One iteration of the loop of [processQueues] (the one-second interval),
    for the queue registered under [queueId]. *)
Definition processQueues (queueId : string) (m : Manager) : Manager :=
  if onLine m then
    match getQueue queueId m with
    | Some queue =>
        if decide (queue_status (getQueueObj m queue) = QRunning)
        then processQueue queue m else m
    | None => m
    end
  else m.

Inductive Event :=
  | Elapse (ms : Z)
  | Interval (queueId : string)
  | Settle (t : nat) (outcome : DownloadResult + string)
  | Fire (k : nat)
  | GoOffline
  | GoOnline
  | Hide
  | Show.

(** An exception that leaves a listener is reported by the browser and goes
    no further: the state is the one at the [throw]. *)
Definition step (m : Manager) (e : Event) : Manager :=
  match e with
  | Elapse ms => set_now (now m + Z.max 0 ms) m
  | Interval queueId => processQueues queueId m
  | Settle t outcome => settle t outcome m
  | Fire k => fireTimer k m
  | GoOffline => (handleNetworkChange false (set_onLine false m)).2
  | GoOnline => (handleNetworkChange true (set_onLine true m)).2
  | Hide => (onVisibilityChange (set_hidden true m)).2
  | Show => (onVisibilityChange (set_hidden false m)).2
  end.

Definition run (m : Manager) (es : list Event) : Manager := foldl step m es.

(** The item events of a given type, in the order they were sent. *)
Definition itemEvents (eventType : string) (m : Manager) : list nat :=
  omap (λ e, match e with
             | ItemEvent ty item _ _ => if decide (ty = eventType) then Some item else None
             | QueueEvent _ _ => None
             end) (events m).


(** *** Histories of a manager *)

(** A call of the interface of the manager, or an event of the browser. *)
Inductive Action :=
  | CreateQueue (queueId : string) (options : QueueOptionsInput)
  | AddToQueue (queueId : string) (items : list RawItem)
  | StartQueue (queueId : string)
  | PauseQueue (queueId reason : string)
  | ResumeQueue (queueId : string)
  | StopQueue (queueId : string)
  | Browser (e : Event).

(** The manager after an action; a call that throws leaves it as it was at
    the [throw]. *)
Definition act (m : Manager) (a : Action) : Manager :=
  match a with
  | CreateQueue queueId options => (createQueue queueId options m).2
  | AddToQueue queueId items => (addToQueue queueId items m).2
  | StartQueue queueId => (startQueue queueId m).2
  | PauseQueue queueId reason => (pauseQueue queueId reason m).2
  | ResumeQueue queueId => (resumeQueue queueId m).2
  | StopQueue queueId => (stopQueue queueId m).2
  | Browser e => step m e
  end.

(** The manager that was created at [clock], after the actions. *)
Definition history (clock : Z) (actions : list Action) : Manager :=
  foldl act (newManager clock) actions.

(** The executions of the item that have begun: its [started]
    notifications. *)
Definition executions (item : nat) (m : Manager) : Z :=
  Z.of_nat (length (filter (λ r, r = item) (itemEvents "started" m))).

Definition validItem (m : Manager) (r : nat) : Prop := (r < length (itemHeap m))%nat.
Definition validQueue (m : Manager) (r : nat) : Prop := (r < length (queueHeap m))%nat.

(** What every history keeps: [attempts] counts the executions of an item;
    the items that were started, the items of the queues and the items
    that the suspended [processQueue] calls hold are items of the heap; a
    suspended call waits for an item that was started; the registered
    queues and the queues of the suspended calls are queues of the heap. *)
Definition wellFormed (m : Manager) : Prop :=
  (∀ i, validItem m i → item_attempts (getItem m i) = executions i m) ∧
  Forall (validItem m) (itemEvents "started" m) ∧
  Forall (λ q, Forall (validItem m) (queue_items q)) (queueHeap m) ∧
  Forall (λ kv, validQueue m kv.2) (queues m) ∧
  Forall (λ t, validQueue m (task_queue t) ∧
               task_item t ∈ itemEvents "started" m ∧
               Forall (validItem m) (task_rest t)) (tasks m).

(** From [m] to [m']: notifications are added, the heaps grow, and the
    options of a queue stay. *)
Definition extends (m m' : Manager) : Prop :=
  itemEvents "started" m `prefix_of` itemEvents "started" m' ∧
  (length (itemHeap m) ≤ length (itemHeap m'))%nat ∧
  (length (queueHeap m) ≤ length (queueHeap m'))%nat ∧
  ∀ q, validQueue m q → queue_options (getQueueObj m' q) = queue_options (getQueueObj m q).

(** What the two properties above read of a manager. *)
Definition shape (m : Manager) :
    list Z * list (QueueOptions * list nat) * list Task * list nat :=
  (item_attempts <$> itemHeap m,
   (λ q, (queue_options q, queue_items q)) <$> queueHeap m,
   tasks m, itemEvents "started" m).

(** [m'] has the shape of [m] and registers no other queue. *)
Definition quiet (m m' : Manager) : Prop :=
  shape m' = shape m ∧ queues m' ⊆ queues m.

(** A suspended call as [wellFormed] wants it. *)
Definition taskOk (m : Manager) (t : Task) : Prop :=
  validQueue m (task_queue t) ∧
  task_item t ∈ itemEvents "started" m ∧
  Forall (validItem m) (task_rest t).

(** *** Properties of queues and items *)

(** [a] may stand before [b] in [queue.items]: higher priority first, the
    older item first among equal priorities. *)
Definition queueOrder (a b : QueueItem) : Prop :=
  item_priority b < item_priority a ∨
  (item_priority a = item_priority b ∧ item_addedAt a ≤ item_addedAt b).

(** What [loadPersistedQueues] does to each restored item. *)
Definition resetInterrupted (it : QueueItem) : QueueItem :=
  if decide (item_status it = IDownloading) then set_item_status IPending it else it.

Definition resetStep (m : Manager) (r : nat) : Manager :=
  if decide (item_status (getItem m r) = IDownloading)
  then updItem r (set_item_status IPending) m else m.

(** The restored queue object of [restoreQueue], whose items are the
    references [n], [n+1], ... of the freshly parsed items. *)
Definition restoredQueue (n : nat) (queueData : QueueData) : Queue :=
  set_queue_status QPaused
    (set_queue_activeDownloads []
       (set_queue_items (seq n (length (qd_items queueData))) (qd_queue queueData))).

(** The queue behind [ref] is a restored one, registered as paused under
    [id], with the items [items], none of which is [downloading]. *)
Definition restoredAs (m : Manager) (id : string) (ref : nat) (items : list QueueItem) : Prop :=
  ∃ q, queueHeap m !! ref = Some q ∧
       queue_status q = QPaused ∧
       queue_activeDownloads q = [] ∧
       queue_id q = id ∧
       id ∈ pausedQueues m ∧
       (λ r, itemHeap m !! r) <$> queue_items q = Some <$> items ∧
       Forall (λ it, item_status it ≠ IDownloading) items.

Definition loadAll (m : Manager) (saved : list QueueData) : Manager :=
  foldl (λ m queueData, restoreQueue queueData m) m saved.

(** Every registered queue is a restored one. *)
Definition allRestored (m : Manager) : Prop :=
  ∀ id ref, (id, ref) ∈ queues m → ∃ items, restoredAs m id ref items.

(** The queue registered under [id] is a restored one with items [items]. *)
Definition registeredAs (m : Manager) (id : string) (items : list QueueItem) : Prop :=
  ∃ ref, getQueue id m = Some ref ∧ restoredAs m id ref items.

(** The two conditions under which [addToQueue] throws. *)
Definition addToQueueFails (m : Manager) (queueId : string) (items : list RawItem) : Prop :=
  match getQueue queueId m with
  | None => True
  | Some queue =>
      maxQueueSize (settings m)
      < Z.of_nat (length (queue_items (getQueueObj m queue))) + Z.of_nat (length items)
  end.

(** *** Worked states *)

(** A queue ["q"] created without auto-start, with three items of
    priorities 1, 5 and 3 added in that order by one [addToQueue] call. *)
Definition demoItem (priority : Z) : RawItem :=
  {| raw_id := None; raw_queueId := None; raw_url := "https://example.org/a.png";
     raw_filename := "a.png"; raw_estimatedSize := None; raw_priority := Some priority |}.

Definition demoOptions (attempts : Z) (delay : option Z) : QueueOptionsInput :=
  {| in_priority := None; in_concurrentLimit := None; in_retryAttempts := Some attempts;
     in_retryDelay := delay; in_autoStart := Some false |}.

Definition demoCreated (attempts : Z) (delay : option Z) : Manager :=
  (createQueue "q" (demoOptions attempts delay) (newManager 1000)).2.

Definition demoAdded : Manager :=
  (addToQueue "q" [demoItem 1; demoItem 5; demoItem 3] (demoCreated 3 None)).2.

Definition demoStarted : Manager := (startQueue "q" demoAdded).2.

Definition success : DownloadResult + string := inl {| finalSize := Some 2048 |}.

Definition failure : DownloadResult + string := inr "Simulated download failure".

(** A queue with [retryAttempts = 2] and one item, started: with a retry
    delay of 100 ms, shorter than the period of the processing interval, and
    with the default delay of 1000 ms. *)
Definition demoRetry : Manager :=
  (startQueue "q" (addToQueue "q" [demoItem 3] (demoCreated 2 (Some 100))).2).2.

Definition demoRetryDefault : Manager :=
  (startQueue "q" (addToQueue "q" [demoItem 3] (demoCreated 2 None)).2).2.

(** Every execution of the item fails; the retry timer fires once its
    delay has elapsed and the next interval picks the item up again. *)
Definition allAttemptsFail : list Event :=
  [Settle 0 failure; Elapse 100; Fire 0; Interval "q"; Settle 0 failure].

(** The first execution fails; the interval runs before the retry timer
    is due. *)
Definition intervalBeforeRetry : list Event :=
  [Settle 0 failure; Elapse 1000; Interval "q"; Fire 0; Elapse 1000; Interval "q"].

(** States of the retrying queue: after the first failure, once the delay
    has elapsed; and during the second execution. *)
Definition demoFailedOnce : Manager := run demoRetry [Settle 0 failure; Elapse 100].

Definition demoSecondRun : Manager := run demoFailedOnce [Fire 0; Interval "q"].

(** While the item of priority 5 of the started demo queue is downloading,
    an item of priority 9 is added to the queue. *)
Definition demoLateArrival : Manager := (addToQueue "q" [demoItem 9] demoStarted).2.

(** A queue with [retryAttempts = 3] and a retry delay of 100 ms, with one
    item, started. *)
Definition demoBackoff : list Action :=
  [CreateQueue "q" (demoOptions 3 (Some 100)); AddToQueue "q" [demoItem 3]; StartQueue "q"].

(** The started demo queue (one item [downloading], two [pending]) with a
    storage attached. *)
Definition demoPersisting : Manager := set_persistenceManager (Some None) demoStarted.

#[global] Arguments startDownload : simpl never.
#[global] Arguments handleDownloadComplete : simpl never.
#[global] Arguments handleDownloadError : simpl never.
#[global] Arguments scheduleRetry : simpl never.
#[global] Arguments retryCallback : simpl never.
#[global] Arguments archiveCallback : simpl never.
#[global] Arguments completeQueue : simpl never.
#[global] Arguments processQueue : simpl never.
#[global] Arguments sortQueueByPriority : simpl never.
#[global] Arguments pendingItems : simpl never.
#[global] Arguments settle : simpl never.
#[global] Arguments fireTimer : simpl never.

(** *** The order of a queue *)

#[global] Instance byPriorityThenAge_consistent : Consistent byPriorityThenAge.
Proof.
  split; unfold byPriorityThenAge; intros; repeat case_decide; lia.
Qed.

#[global] Instance byPriority_consistent {A} (prio : A → Z) :
  Consistent (λ a b, prio b - prio a).
Proof. split; intros; lia. Qed.

Lemma cmp_le_queueOrder a b : cmp_le byPriorityThenAge a b ↔ queueOrder a b.
Proof.
  unfold cmp_le, byPriorityThenAge, queueOrder. case_decide; lia.
Qed.

Lemma getQueueObj_updQueue_Some m r f q :
  queueHeap m !! r = Some q → getQueueObj (updQueue r f m) r = f q.
Proof.
  intros Hq. unfold getQueueObj, updQueue. simpl.
  apply list_lookup_total_correct.
  by rewrite list_lookup_alter_eq, Hq.
Qed.

Lemma getQueueObj_updQueue_None m r f :
  queueHeap m !! r = None → getQueueObj (updQueue r f m) r = getQueueObj m r.
Proof.
  intros Hq. unfold getQueueObj, updQueue. simpl.
  rewrite !list_lookup_total_alt, list_lookup_alter_eq, Hq. done.
Qed.

Lemma getQueueObj_Some m r q : queueHeap m !! r = Some q → getQueueObj m r = q.
Proof. intros. by apply list_lookup_total_correct. Qed.

Lemma sortQueueByPriority_sorted m queue :
  StronglySorted queueOrder
    (itemsOf (sortQueueByPriority queue m) (getQueueObj (sortQueueByPriority queue m) queue)).
Proof.
  unfold sortQueueByPriority.
  destruct (queueHeap m !! queue) as [q|] eqn:Hq.
  - rewrite (getQueueObj_updQueue_Some _ _ _ q) by done.
    unfold itemsOf, getItem; simpl.
    rewrite (js_sort_fmap (λ r, itemHeap m !!! r) byPriorityThenAge).
    eapply StronglySorted_mono; [|apply js_sort_sorted; apply _].
    intros a b. apply cmp_le_queueOrder.
  - rewrite getQueueObj_updQueue_None by done.
    unfold getQueueObj. rewrite list_lookup_total_alt, Hq. constructor.
Qed.

Lemma itemsOf_heaps m m' r :
  itemHeap m = itemHeap m' → queueHeap m = queueHeap m' →
  itemsOf m (getQueueObj m r) = itemsOf m' (getQueueObj m' r).
Proof. unfold itemsOf, getItem, getQueueObj. by intros -> ->. Qed.

Lemma addToQueue_sorted m queueId items ids m' queue :
  addToQueue queueId items m = (Ok ids, m') →
  getQueue queueId m' = Some queue →
  StronglySorted queueOrder (itemsOf m' (getQueueObj m' queue)).
Proof.
  unfold addToQueue. destruct (getQueue queueId m) as [queue0|] eqn:Hget; [|done].
  case_decide; [done|]. intros [= <- <-].
  unfold getQueue in *. simpl. rewrite Hget. intros [= <-].
  erewrite itemsOf_heaps; [apply sortQueueByPriority_sorted|done..].
Qed.

(** *** The selection of [processQueue] *)

Lemma pendingItems_sorted m q :
  ∃ rest, StronglySorted (λ a b, item_priority (getItem m b) ≤ item_priority (getItem m a))
            (pendingItems m q ++ rest) ∧
          ∀ r, r ∈ queue_items q → item_status (getItem m r) = IPending →
               r ∈ pendingItems m q ++ rest.
Proof.
  unfold pendingItems.
  set (cmp := λ a b, item_priority (getItem m b) - item_priority (getItem m a)).
  set (S := js_sort cmp _).
  exists (drop (Z.to_nat (availableSlots q)) S). rewrite take_drop. split.
  - eapply StronglySorted_mono; [|apply (js_sort_sorted cmp); apply _].
    unfold cmp_le, cmp. intros a b. lia.
  - intros r Hr Hst. unfold S. rewrite elem_of_js_sort.
    by apply list_elem_of_filter.
Qed.

Lemma pendingItems_higher_first m q A B l1 l2 :
  pendingItems m q = l1 ++ B :: l2 →
  A ∈ queue_items q →
  item_status (getItem m A) = IPending →
  item_priority (getItem m B) < item_priority (getItem m A) →
  A ∈ l1.
Proof.
  intros Hsel HA Hst Hprio.
  destruct (pendingItems_sorted m q) as (rest & Hsorted & Hall).
  specialize (Hall A HA Hst). rewrite Hsel in Hsorted, Hall.
  rewrite <-app_assoc in Hsorted, Hall. simpl in *.
  apply elem_of_app in Hall as [?|Hin]; [done|].
  apply StronglySorted_app_1_r, StronglySorted_cons in Hsorted as [HB _].
  apply elem_of_cons in Hin as [->|Hin]; [lia|].
  rewrite Forall_forall in HB. specialize (HB A Hin). simpl in HB. lia.
Qed.

Lemma pendingItems_pending m q r :
  r ∈ pendingItems m q → r ∈ queue_items q ∧ item_status (getItem m r) = IPending.
Proof.
  unfold pendingItems. intros Hr%subseteq_take.
  rewrite elem_of_js_sort in Hr. by apply list_elem_of_filter in Hr as [? ?].
Qed.

(** *** The order in which downloads start *)

Lemma itemEvents_notifyItemEvent ty ty' item queue m :
  itemEvents ty (notifyItemEvent ty' item queue m)
  = itemEvents ty m ++ (if decide (ty' = ty) then [item] else []).
Proof.
  unfold itemEvents, notifyItemEvent; simpl.
  rewrite omap_app. simpl. by case_decide.
Qed.

Lemma completeQueue_itemEvents ty queue m :
  itemEvents ty (completeQueue queue m) = itemEvents ty m.
Proof.
  unfold completeQueue, itemEvents. case_decide; [done|]. simpl.
  rewrite omap_app. simpl. by rewrite app_nil_r.
Qed.

Lemma itemEvents_set_tasks ty v m : itemEvents ty (set_tasks v m) = itemEvents ty m.
Proof. done. Qed.

Lemma startDownload_tasks item queue m : tasks (startDownload item queue m) = tasks m.
Proof. unfold startDownload; simpl. by case_decide. Qed.

Lemma startDownload_started item queue m :
  itemEvents "started" (startDownload item queue m) = itemEvents "started" m ++ [item].
Proof.
  unfold startDownload. rewrite itemEvents_notifyItemEvent.
  destruct (decide ("started" = "started")) as [_|]; [|done]. f_equal.
  unfold itemEvents; simpl. by case_decide.
Qed.

Lemma handleDownloadComplete_tasks item queue result m :
  tasks (handleDownloadComplete item queue result m) = tasks m.
Proof. done. Qed.

Lemma handleDownloadComplete_started item queue result m :
  itemEvents "started" (handleDownloadComplete item queue result m)
  = itemEvents "started" m.
Proof.
  unfold handleDownloadComplete. rewrite itemEvents_notifyItemEvent.
  destruct (decide ("completed" = "started")); [done|]. by rewrite app_nil_r.
Qed.

Lemma handleDownloadError_tasks item queue error m :
  tasks (handleDownloadError item queue error m) = tasks m.
Proof. unfold handleDownloadError, scheduleRetry; simpl. by case_decide. Qed.

Lemma handleDownloadError_started item queue error m :
  itemEvents "started" (handleDownloadError item queue error m) = itemEvents "started" m.
Proof.
  unfold handleDownloadError. rewrite itemEvents_notifyItemEvent.
  destruct (decide ("failed" = "started")); [done|]. rewrite app_nil_r.
  unfold itemEvents, scheduleRetry; simpl. by case_decide.
Qed.

(** The task [t] goes through the rest of its selection, one item per
    settled download. *)
Lemma settle_started t queue rest : ∀ m item outcomes,
  tasks m !! t = Some {| task_queue := queue; task_item := item; task_rest := rest |} →
  length outcomes = S (length rest) →
  itemEvents "started" (run m (Settle t <$> outcomes)) = itemEvents "started" m ++ rest.
Proof.
  induction rest as [|next rest IH]; intros m item outcomes Ht Hlen.
  - destruct outcomes as [|o [|??]]; simplify_eq/=.
    unfold settle. rewrite Ht. simpl. rewrite itemEvents_set_tasks.
    destruct o;
      by rewrite ?handleDownloadComplete_started, ?handleDownloadError_started, app_nil_r.
  - destruct outcomes as [|o outcomes]; simplify_eq/=.
    erewrite IH; [| |done].
    + unfold settle. rewrite Ht. simpl.
      rewrite itemEvents_set_tasks, startDownload_started.
      destruct o;
        by rewrite ?handleDownloadComplete_started, ?handleDownloadError_started, <-app_assoc.
    + unfold settle. rewrite Ht. cbn.
      apply list_lookup_insert_eq. rewrite startDownload_tasks.
      apply lookup_lt_Some in Ht.
      destruct o; by rewrite ?handleDownloadComplete_tasks, ?handleDownloadError_tasks.
Qed.

Lemma processQueue_started queue m outcomes :
  length outcomes = length (pendingItems m (getQueueObj m queue)) →
  0 < availableSlots (getQueueObj m queue) →
  itemEvents "started" (run (processQueue queue m) (Settle (length (tasks m)) <$> outcomes))
  = itemEvents "started" m ++ pendingItems m (getQueueObj m queue).
Proof.
  intros Hlen Hslots. unfold processQueue.
  rewrite decide_False by lia.
  destruct (pendingItems m (getQueueObj m queue)) as [|item rest] eqn:Hsel.
  - destruct outcomes; [|done]. rewrite app_nil_r. simpl.
    case_decide; [|done]. apply completeQueue_itemEvents.
  - erewrite (settle_started _ queue rest _ item); [| |done].
    + by rewrite itemEvents_set_tasks, startDownload_started, <-app_assoc.
    + cbn. rewrite startDownload_tasks.
      by rewrite lookup_app_r, Nat.sub_diag by done.
Qed.

(** *** Reading the heaps after an update *)

(** A field that an update leaves alone reads the same after it, also
    through a reference that the update does not reach. *)
Lemma lookup_total_alter_field {A B} `{!Inhabited A} (g : A → B) (f : A → A)
    (r r' : nat) (l : list A) :
  (∀ x, g (f x) = g x) → g (alter f r l !!! r') = g (l !!! r').
Proof.
  intros Hg. rewrite !list_lookup_total_alt, list_lookup_alter.
  case_decide; [subst|done]. destruct (l !! r'); simpl; [apply Hg|done].
Qed.

Lemma lookup_total_alter_Some {A} `{!Inhabited A} (f : A → A) (r : nat) (l : list A) x :
  l !! r = Some x → alter f r l !!! r = f x.
Proof.
  intros Hx. apply list_lookup_total_correct. by rewrite list_lookup_alter_eq, Hx.
Qed.

(** [startDownload] on an item of the heap: the item is [downloading] and
    one more attempt is counted. *)
Lemma startDownload_item item queue m it :
  itemHeap m !! item = Some it →
  getItem (startDownload item queue m) item
  = set_item_attempts (item_attempts it + 1)
      (set_item_startedAt (Some (now m)) (set_item_status IDownloading it)).
Proof.
  intros Hit. unfold startDownload, getItem. simpl.
  case_decide; simpl; by erewrite lookup_total_alter_Some by done.
Qed.

Lemma handleDownloadComplete_heap item queue result m :
  length (itemHeap (handleDownloadComplete item queue result m)) = length (itemHeap m).
Proof. unfold handleDownloadComplete. simpl. by rewrite length_alter. Qed.

Lemma handleDownloadError_heap item queue error m :
  length (itemHeap (handleDownloadError item queue error m)) = length (itemHeap m).
Proof.
  unfold handleDownloadError, scheduleRetry. simpl. case_decide; simpl; by rewrite length_alter.
Qed.

(** The loop of a suspended [processQueue] call goes on with the selection
    made when the call began. *)
Lemma settle_next t outcome m queue item next rest :
  tasks m !! t = Some {| task_queue := queue; task_item := item; task_rest := next :: rest |} →
  (next < length (itemHeap m))%nat →
  itemEvents "started" (settle t outcome m) = itemEvents "started" m ++ [next] ∧
  item_status (getItem (settle t outcome m) next) = IDownloading.
Proof.
  intros Ht Hnext. unfold settle. rewrite Ht. simpl.
  rewrite itemEvents_set_tasks, startDownload_started. split.
  - destruct outcome; by rewrite ?handleDownloadComplete_started, ?handleDownloadError_started.
  - set (m1 := match outcome with inl _ => _ | inr _ => _ end).
    assert (next < length (itemHeap m1))%nat as Hlt.
    { unfold m1. destruct outcome;
        by rewrite ?handleDownloadComplete_heap, ?handleDownloadError_heap. }
    apply lookup_lt_is_Some in Hlt as [it Hit].
    change (item_status (getItem (startDownload next queue m1) next) = IDownloading).
    by rewrite (startDownload_item _ _ _ it).
Qed.

(** *** Priority ordering *)

(** C1. After a successful [addToQueue] the item list of the queue is sorted
    by priority descending and by [addedAt] ascending among equal
    priorities; [processQueue] selects pending items of the queue, and in its
    selection a pending item of strictly higher priority stands before every
    selected item of lower priority; downloads start in the order of the
    selection, [startDownload] making the item [downloading] and counting
    the attempt; and a queue whose items were added with priorities 1, 5, 3
    starts them in the order 5, 3, 1.  The order holds inside one selection
    only: the loop of [processQueue] goes on with the selection it made
    when it was called, whatever has been added to the queue since.  When
    an item of priority 9 is added while the item of priority 5 is
    downloading, the item of priority 3 starts next, although the item of
    priority 9 is pending and two of the three slots are free; the item of
    priority 9 starts at the next tick, and the item of priority 1, which
    is then in two selections, is downloaded twice. *)
Theorem C1_priority_within_one_selection :
  (∀ m queueId items ids m' queue,
     addToQueue queueId items m = (Ok ids, m') →
     getQueue queueId m' = Some queue →
     StronglySorted queueOrder (itemsOf m' (getQueueObj m' queue))) ∧
  (∀ m q r,
     r ∈ pendingItems m q →
     r ∈ queue_items q ∧ item_status (getItem m r) = IPending) ∧
  (∀ m q A B l1 l2,
     pendingItems m q = l1 ++ B :: l2 →
     A ∈ queue_items q →
     item_status (getItem m A) = IPending →
     item_priority (getItem m B) < item_priority (getItem m A) →
     A ∈ l1) ∧
  (∀ m queue outcomes,
     length outcomes = length (pendingItems m (getQueueObj m queue)) →
     0 < availableSlots (getQueueObj m queue) →
     itemEvents "started"
       (run (processQueue queue m) (Settle (length (tasks m)) <$> outcomes))
     = itemEvents "started" m ++ pendingItems m (getQueueObj m queue)) ∧
  (∀ m item queue it,
     itemHeap m !! item = Some it →
     itemEvents "started" (startDownload item queue m) = itemEvents "started" m ++ [item] ∧
     getItem (startDownload item queue m) item
     = set_item_attempts (item_attempts it + 1)
         (set_item_startedAt (Some (now m)) (set_item_status IDownloading it))) ∧
  (let m := run demoStarted [Settle 0 success; Settle 0 success; Settle 0 success] in
   item_priority <$> itemsOf demoAdded (getQueueObj demoAdded 0) = [5; 3; 1] ∧
   item_priority ∘ getItem m <$> itemEvents "started" m = [5; 3; 1] ∧
   item_status <$> itemsOf m (getQueueObj m 0) = [ICompleted; ICompleted; ICompleted] ∧
   item_attempts <$> itemsOf m (getQueueObj m 0) = [1; 1; 1]) ∧
  (∀ t outcome m queue item next rest,
     tasks m !! t
     = Some {| task_queue := queue; task_item := item; task_rest := next :: rest |} →
     (next < length (itemHeap m))%nat →
     itemEvents "started" (settle t outcome m) = itemEvents "started" m ++ [next] ∧
     item_status (getItem (settle t outcome m) next) = IDownloading) ∧
  (let m := demoLateArrival in
   let m' := run m [Settle 0 success] in
   let items q := (λ it, (item_priority it, item_status it)) <$> q in
   queue_status (getQueueObj m 0) = QRunning ∧
   availableSlots (getQueueObj m 0) = 2 ∧
   items (itemsOf m (getQueueObj m 0))
   = [(9, IPending); (5, IDownloading); (3, IPending); (1, IPending)] ∧
   item_priority ∘ getItem m' <$> itemEvents "started" m' = [5; 3] ∧
   items (itemsOf m' (getQueueObj m' 0))
   = [(9, IPending); (5, ICompleted); (3, IDownloading); (1, IPending)] ∧
   queue_status (getQueueObj m' 0) = QRunning ∧
   availableSlots (getQueueObj m' 0) = 2 ∧
   (let m'' := run m' [Interval "q"; Settle 0 success; Settle 1 success;
                       Settle 0 success; Settle 0 success] in
    item_priority ∘ getItem m'' <$> itemEvents "started" m'' = [5; 3; 9; 1; 1] ∧
    items (itemsOf m'' (getQueueObj m'' 0))
    = [(9, ICompleted); (5, ICompleted); (3, ICompleted); (1, ICompleted)] ∧
    item_attempts <$> itemsOf m'' (getQueueObj m'' 0) = [1; 1; 1; 2])).
Proof.
  split_and!.
  - intros. by eapply addToQueue_sorted.
  - intros. by apply pendingItems_pending.
  - intros. by eapply pendingItems_higher_first.
  - intros. by apply processQueue_started.
  - intros. split; [apply startDownload_started|by apply startDownload_item].
  - vm_compute. done.
  - intros. by eapply settle_next.
  - vm_compute. done.
Qed.

Lemma C1_priority_within_one_selection_witness :
  StronglySorted queueOrder (itemsOf demoAdded (getQueueObj demoAdded 0)) ∧
  1%nat ∈ [1%nat] ∧
  itemEvents "started"
    (run (processQueue 0 demoAdded)
       (Settle (length (tasks demoAdded)) <$> [success; failure; success]))
  = itemEvents "started" demoAdded ++ pendingItems demoAdded (getQueueObj demoAdded 0) ∧
  item_status (getItem (settle 0 success demoLateArrival) 2) = IDownloading.
Proof.
  destruct C1_priority_within_one_selection
    as (Hsorted & _ & Hsel & Hstart & _ & _ & Hnext & _).
  split_and!.
  - apply (Hsorted (demoCreated 3 None) "q" [demoItem 1; demoItem 5; demoItem 3]
             ["q_item_1000_0"; "q_item_1000_1"; "q_item_1000_2"] demoAdded 0%nat);
      by vm_compute.
  - apply (Hsel demoAdded (getQueueObj demoAdded 0) 1%nat 2%nat [1%nat] [0%nat]).
    + by vm_compute.
    + vm_compute. repeat constructor.
    + by vm_compute.
    + by vm_compute.
  - apply (Hstart demoAdded 0%nat [success; failure; success]); by vm_compute.
  - apply (Hnext 0%nat success demoLateArrival 0%nat 1%nat 2%nat [0%nat]).
    + by vm_compute.
    + vm_compute. lia.
Defined.

Lemma handleDownloadError_timers item queue error m :
  timers (handleDownloadError item queue error m)
  = timers m ++
    (if decide (item_attempts (getItem m item)
                < opt_retryAttempts (queue_options (getQueueObj m queue)))
     then [{| timer_action := RetryTimer item queue;
              timer_delay := opt_retryDelay (queue_options (getQueueObj m queue))
                             * 2 ^ (item_attempts (getItem m item) - 1);
              timer_setAt := now m |}]
     else []).
Proof.
  unfold handleDownloadError, scheduleRetry, getItem, getQueueObj; simpl.
  rewrite !(lookup_total_alter_field item_attempts) by done.
  rewrite !(lookup_total_alter_field queue_options) by done.
  case_decide; simpl; [done|by rewrite app_nil_r].
Qed.

(** *** Retries *)

(** C2. A failure schedules a retry exactly when the executions made so
    far, the failed one included, are fewer than [retryAttempts].  So with
    [retryAttempts = 2] and every execution failing, the item is executed
    twice: it fails, is retried once, fails again and stays [failed] with
    no retry pending.  Both failures are counted in the queue's [failed]
    counter and logged in [failedItems]; later timers and intervals leave
    the item [failed].  The item is not retried a second time: there are two
    failures and one retry, not three and two.  When the interval runs
    during the delay and nothing else is pending or active, it completes
    the queue, and the item is not retried at all. *)
Theorem C2_retry_cap_two_attempts :
  (∀ m item queue error,
     timers (handleDownloadError item queue error m)
     = timers m ++
       (if decide (item_attempts (getItem m item)
                   < opt_retryAttempts (queue_options (getQueueObj m queue)))
        then [{| timer_action := RetryTimer item queue;
                 timer_delay := opt_retryDelay (queue_options (getQueueObj m queue))
                                * 2 ^ (item_attempts (getItem m item) - 1);
                 timer_setAt := now m |}]
        else [])) ∧
  (let m := run demoRetry allAttemptsFail in
   let q := getQueueObj m 0 in
   item_status <$> itemsOf m q = [IFailed] ∧
   item_attempts <$> itemsOf m q = [2] ∧
   length (itemEvents "started" m) = 2%nat ∧
   length (itemEvents "failed" m) = 2%nat ∧
   length (itemEvents "retrying" m) = 1%nat ∧
   totalRetried (statistics m) = 1 ∧
   timers m = [] ∧ tasks m = [] ∧
   qp_failed (queue_progress q) = 2 ∧
   length (queue_failedItems q) = 2%nat ∧
   (let m' := run m [Elapse 60000; Fire 0; Interval "q"; Elapse 60000; Interval "q"] in
    item_status <$> itemsOf m' (getQueueObj m' 0) = [IFailed] ∧
    length (itemEvents "started" m') = 2%nat)) ∧
  (let m := run demoRetryDefault intervalBeforeRetry in
   let q := getQueueObj m 0 in
   queue_status q = QCompleted ∧
   item_status <$> itemsOf m q = [IFailed] ∧
   item_attempts <$> itemsOf m q = [1] ∧
   length (itemEvents "retrying" m) = 0%nat ∧
   qp_failed (queue_progress q) = 1).
Proof.
  split; [intros; apply handleDownloadError_timers|]. by vm_compute.
Qed.

(** *** Pausing for several reasons *)

(** C3. [resumeAllQueues] resumes the same queues whatever its [reason].
    A running queue is paused when the network is lost, the tab is then
    hidden and shown again: the queue is [running] although the browser is
    still offline.  In the other order, a queue paused because the tab was
    hidden is [running] again when the network comes back, although the tab
    is still hidden. *)
Theorem C3_resume_ignores_reason :
  (∀ reason reason' m, resumeAllQueues reason m = resumeAllQueues reason' m) ∧
  (let m := run demoStarted [GoOffline; Hide] in
   queue_status (getQueueObj m 0) = QPaused ∧
   queue_pauseReason (getQueueObj m 0) = Some "network") ∧
  (let m := run demoStarted [GoOffline; Hide; Show] in
   onLine m = false ∧ queue_status (getQueueObj m 0) = QRunning) ∧
  (let m := run demoStarted [Hide; GoOffline; GoOnline] in
   hidden m = true ∧ queue_status (getQueueObj m 0) = QRunning).
Proof. split; [done|]. by vm_compute. Qed.

(** *** Restoring persisted queues *)

Lemma resetInterrupted_idemp it : resetInterrupted (resetInterrupted it) = resetInterrupted it.
Proof.
  unfold resetInterrupted. repeat case_decide; try done.
Qed.

Lemma resetInterrupted_status it : item_status (resetInterrupted it) ≠ IDownloading.
Proof. unfold resetInterrupted. by case_decide. Qed.

Lemma set_itemHeap_id m : set_itemHeap (itemHeap m) m = m.
Proof. by destruct m. Qed.

Lemma resetStep_lookup m r0 r :
  itemHeap (resetStep m r0) !! r
  = if decide (r = r0) then resetInterrupted <$> itemHeap m !! r else itemHeap m !! r.
Proof.
  unfold resetStep, getItem, resetInterrupted.
  rewrite list_lookup_total_alt.
  destruct (decide (r = r0)) as [->|Hne].
  - destruct (itemHeap m !! r0) as [it|] eqn:Hit; simpl.
    + destruct (decide (item_status it = IDownloading)); simpl; [|by rewrite Hit].
      by rewrite list_lookup_alter_eq, Hit.
    + by destruct (decide (item_status inhabitant = IDownloading)).
  - case_decide; simpl; [|done]. by rewrite list_lookup_alter_ne.
Qed.

Lemma resetStep_frame m r0 : resetStep m r0 = set_itemHeap (itemHeap (resetStep m r0)) m.
Proof.
  unfold resetStep. case_decide; simpl; [done|]. by rewrite set_itemHeap_id.
Qed.

Lemma resetFold_frame refs : ∀ m,
  foldl resetStep m refs = set_itemHeap (itemHeap (foldl resetStep m refs)) m.
Proof.
  induction refs as [|r0 refs IH]; intros m; simpl.
  - by rewrite set_itemHeap_id.
  - etrans; [apply IH|].
    generalize (itemHeap (foldl resetStep (resetStep m r0) refs)). intros h.
    by rewrite (resetStep_frame m r0).
Qed.

Lemma resetFold_lookup refs : ∀ m r,
  itemHeap (foldl resetStep m refs) !! r
  = if decide (r ∈ refs) then resetInterrupted <$> itemHeap m !! r else itemHeap m !! r.
Proof.
  induction refs as [|r0 refs IH]; intros m r; cbn [foldl].
  - by rewrite decide_False by apply not_elem_of_nil.
  - rewrite IH, resetStep_lookup.
    destruct (decide (r = r0)) as [->|Hne].
    + rewrite (decide_True (P := r0 ∈ r0 :: refs)) by apply list_elem_of_here.
      case_decide; [|done].
      destruct (itemHeap m !! r0); simpl; [|done]. by rewrite resetInterrupted_idemp.
    + destruct (decide (r ∈ refs)).
      * by rewrite decide_True by by apply list_elem_of_further.
      * rewrite decide_False; [done|]. by intros [?|?]%elem_of_cons.
Qed.

Lemma restoreQueue_eq queueData m :
  restoreQueue queueData m
  = set_pausedQueues (set_add (queue_id (qd_queue queueData)) (pausedQueues m))
      (set_queues (map_set (queue_id (qd_queue queueData)) (length (queueHeap m)) (queues m))
         (set_queueHeap (queueHeap m ++ [restoredQueue (length (itemHeap m)) queueData])
            (set_itemHeap (itemHeap m ++ (resetInterrupted <$> qd_items queueData)) m))).
Proof.
  unfold restoreQueue.
  change (foldl _ ?m0 ?refs) with (foldl resetStep m0 refs).
  set (refs := seq (length (itemHeap m)) (length (qd_items queueData))).
  set (m1 := set_itemHeap (itemHeap m ++ qd_items queueData) m).
  assert (itemHeap (foldl resetStep m1 refs)
          = itemHeap m ++ (resetInterrupted <$> qd_items queueData)) as Hheap.
  { apply list_eq. intros r. rewrite resetFold_lookup. unfold m1, refs; simpl.
    destruct (decide (r < length (itemHeap m))%nat).
    - rewrite decide_False by (rewrite elem_of_seq; lia).
      by rewrite !lookup_app_l by done.
    - rewrite !lookup_app_r by lia. rewrite list_lookup_fmap.
      case_decide as Hr; [done|].
      rewrite elem_of_seq in Hr.
      rewrite lookup_ge_None_2; [done|lia]. }
  rewrite (resetFold_frame refs m1), Hheap. done.
Qed.

Lemma map_get_map_set_eq {V} k (v : V) l : map_get k (map_set k v l) = Some v.
Proof.
  induction l as [|[k' v'] l IH]; simpl.
  - by rewrite decide_True.
  - case_decide; simpl; [by rewrite decide_True|by rewrite decide_False].
Qed.

Lemma map_get_map_set_ne {V} k k' (v : V) l :
  k ≠ k' → map_get k' (map_set k v l) = map_get k' l.
Proof.
  intros Hne. induction l as [|[k0 v0] l IH]; simpl.
  - by rewrite decide_False.
  - destruct (decide (k0 = k)) as [->|]; simpl.
    + by rewrite !decide_False.
    + by rewrite IH.
Qed.

Lemma elem_of_map_set {V} k (v : V) l k' v' :
  (k', v') ∈ map_set k v l → (k' = k ∧ v' = v) ∨ (k', v') ∈ l.
Proof.
  induction l as [|[k0 v0] l IH]; simpl.
  - intros ?%list_elem_of_singleton. simplify_eq. by left.
  - case_decide; subst.
    + intros [?|?]%elem_of_cons; simplify_eq; [by left|].
      right. by apply list_elem_of_further.
    + intros [?|?]%elem_of_cons; simplify_eq; [right; apply list_elem_of_here|].
      destruct IH as [?|?]; [done|by left|]. right. by apply list_elem_of_further.
Qed.

Lemma elem_of_set_add k s k' : k' ∈ set_add k s ↔ k' = k ∨ k' ∈ s.
Proof.
  unfold set_add. case_decide.
  - split; [by right|]. by intros [->|?].
  - rewrite elem_of_app, list_elem_of_singleton. tauto.
Qed.

Lemma lookups_app {A} (l ext : list A) (rs : list nat) (xs : list A) :
  (λ r, l !! r) <$> rs = Some <$> xs → (λ r, (l ++ ext) !! r) <$> rs = Some <$> xs.
Proof.
  revert xs. induction rs as [|r rs IH]; intros [|x xs]; csimpl; try done.
  intros [= Hr Hrs]. f_equal; [|by apply IH].
  by apply lookup_app_l_Some.
Qed.

Lemma lookups_seq {A} (l xs : list A) :
  (λ r, (l ++ xs) !! r) <$> seq (length l) (length xs) = Some <$> xs.
Proof.
  apply list_eq. intros i. rewrite !list_lookup_fmap.
  destruct (xs !! i) as [x|] eqn:Hx; simpl.
  - rewrite lookup_seq_lt by by eapply lookup_lt_Some. simpl.
    rewrite lookup_app_r by lia.
    replace (length l + i - length l)%nat with i by lia. by rewrite Hx.
  - apply lookup_ge_None in Hx. by rewrite lookup_seq_ge.
Qed.

Lemma lookups_total {A} `{!Inhabited A} (l : list A) (rs : list nat) (xs : list A) :
  (λ r, l !! r) <$> rs = Some <$> xs → (λ r, l !!! r) <$> rs = xs.
Proof.
  revert xs. induction rs as [|r rs IH]; intros [|x xs]; csimpl; try done.
  intros [= Hr Hrs]. f_equal; [|by apply IH].
  by apply list_lookup_total_correct.
Qed.

Lemma restoredAs_old queueData m id ref items :
  restoredAs m id ref items → restoredAs (restoreQueue queueData m) id ref items.
Proof.
  intros (q & Hq & Hst & Hact & Hid & Hpaused & Hitems & Hnone).
  rewrite restoreQueue_eq. exists q. simpl.
  split_and!; try done.
  - by apply lookup_app_l_Some.
  - apply elem_of_set_add. by right.
  - by apply lookups_app.
Qed.

Lemma restoredAs_new queueData m :
  restoredAs (restoreQueue queueData m) (queue_id (qd_queue queueData))
    (length (queueHeap m)) (resetInterrupted <$> qd_items queueData).
Proof.
  rewrite restoreQueue_eq. exists (restoredQueue (length (itemHeap m)) queueData). simpl.
  split_and!; try done.
  - by rewrite lookup_app_r, Nat.sub_diag by done.
  - apply elem_of_set_add. by left.
  - rewrite <-(length_fmap resetInterrupted (qd_items queueData)). apply lookups_seq.
  - apply Forall_fmap, Forall_true. intros it. apply resetInterrupted_status.
Qed.

Lemma allRestored_empty m : queues m = [] → allRestored m.
Proof. intros Hq id ref Hin. rewrite Hq in Hin. by apply elem_of_nil in Hin. Qed.

Lemma restoreQueue_allRestored queueData m :
  allRestored m → allRestored (restoreQueue queueData m).
Proof.
  intros Hinv id ref Hin.
  assert (queues (restoreQueue queueData m)
          = map_set (queue_id (qd_queue queueData)) (length (queueHeap m)) (queues m))
    as Hqueues by by rewrite restoreQueue_eq.
  rewrite Hqueues in Hin. apply elem_of_map_set in Hin as [[-> ->]|Hin].
  - eexists. apply restoredAs_new.
  - destruct (Hinv id ref Hin) as [items Hitems].
    exists items. by apply restoredAs_old.
Qed.

Lemma loadAll_allRestored saved : ∀ m, allRestored m → allRestored (loadAll m saved).
Proof.
  induction saved as [|queueData saved IH]; intros m Hinv; simpl; [done|].
  by apply IH, restoreQueue_allRestored.
Qed.

Lemma restoreQueue_registeredAs_new queueData m :
  registeredAs (restoreQueue queueData m) (queue_id (qd_queue queueData))
    (resetInterrupted <$> qd_items queueData).
Proof.
  exists (length (queueHeap m)). split; [|apply restoredAs_new].
  rewrite restoreQueue_eq. unfold getQueue; simpl. apply map_get_map_set_eq.
Qed.

Lemma restoreQueue_registeredAs_old queueData m id items :
  queue_id (qd_queue queueData) ≠ id →
  registeredAs m id items → registeredAs (restoreQueue queueData m) id items.
Proof.
  intros Hne (ref & Hget & Hres). exists ref. split; [|by apply restoredAs_old].
  rewrite restoreQueue_eq. unfold getQueue in *; simpl.
  by rewrite map_get_map_set_ne.
Qed.

Lemma loadAll_registeredAs_old saved : ∀ m id items,
  id ∉ (λ qd, queue_id (qd_queue qd)) <$> saved →
  registeredAs m id items → registeredAs (loadAll m saved) id items.
Proof.
  induction saved as [|queueData saved IH]; intros m id items Hnotin Hreg; simpl; [done|].
  rewrite fmap_cons, not_elem_of_cons in Hnotin. destruct Hnotin as [Hne Hnotin].
  apply IH; [done|]. by apply restoreQueue_registeredAs_old.
Qed.

Lemma loadAll_registeredAs saved : ∀ m queueData,
  NoDup ((λ qd, queue_id (qd_queue qd)) <$> saved) →
  queueData ∈ saved →
  registeredAs (loadAll m saved) (queue_id (qd_queue queueData))
    (resetInterrupted <$> qd_items queueData).
Proof.
  induction saved as [|qd0 saved IH]; intros m queueData Hnodup Hin.
  - by apply elem_of_nil in Hin.
  - rewrite fmap_cons in Hnodup. apply NoDup_cons in Hnodup as [Hfresh Hnodup].
    apply elem_of_cons in Hin as [->|Hin]; simpl.
    + apply loadAll_registeredAs_old; [done|]. apply restoreQueue_registeredAs_new.
    + by apply IH.
Qed.

Lemma restoredAs_itemsOf m id ref items :
  restoredAs m id ref items →
  queue_status (getQueueObj m ref) = QPaused ∧
  queue_activeDownloads (getQueueObj m ref) = [] ∧
  id ∈ pausedQueues m ∧
  itemsOf m (getQueueObj m ref) = items ∧
  Forall (λ it, item_status it ≠ IDownloading) items.
Proof.
  intros (q & Hq & Hst & Hact & Hid & Hpaused & Hitems & Hnone).
  rewrite (getQueueObj_Some _ _ q) by done.
  split_and!; try done.
  unfold itemsOf, getItem. by apply lookups_total.
Qed.

(** C5. The queues are persisted and, [ms] milliseconds later, the extension
    restarts over the same storage.  Within the seven days that the stored
    value lasts, every queue of the new manager is [paused], is registered
    in [pausedQueues], has no active download and no [downloading] item, and
    every persisted queue is there again under its id, its items being the
    persisted ones with [downloading] replaced by [pending]; after seven
    days nothing is restored and the stored value is removed.  A restored
    queue does not stay paused until someone resumes it: it is in
    [pausedQueues], so that the first [visibilitychange] to visible, or the
    first [online] event, resumes it with every other paused queue, and the
    next tick of the processing interval starts a download. *)
Theorem C5_restored_queue_resumes_on_events :
  (∀ m store ms,
     persistenceManager m = Some store →
     NoDup ((λ kv, queue_id (getQueueObj m kv.2)) <$> queues m) →
     let m' := restart (step (persistQueues true m) (Elapse ms)) in
     (ms ≤ expire →
        (∀ id ref, (id, ref) ∈ queues m' →
           queue_status (getQueueObj m' ref) = QPaused ∧
           queue_activeDownloads (getQueueObj m' ref) = [] ∧
           id ∈ pausedQueues m' ∧
           Forall (λ it, item_status it ≠ IDownloading) (itemsOf m' (getQueueObj m' ref))) ∧
        (∀ id ref, (id, ref) ∈ queues m →
           ∃ ref', getQueue (queue_id (getQueueObj m ref)) m' = Some ref' ∧
                   queue_status (getQueueObj m' ref') = QPaused ∧
                   itemsOf m' (getQueueObj m' ref')
                   = resetInterrupted <$> itemsOf m (getQueueObj m ref))) ∧
     (expire < ms → now m + expire ≠ 0 →
        queues m' = [] ∧ persistenceManager m' = Some None)) ∧
  (let m' := restart (persistQueues true demoPersisting) in
   let view m := (queue_status (getQueueObj m 0), pausedQueues m,
                  item_status <$> itemsOf m (getQueueObj m 0),
                  item_priority ∘ getItem m <$> itemEvents "started" m,
                  queue_activeDownloads (getQueueObj m 0)) in
   item_status <$> itemsOf demoPersisting (getQueueObj demoPersisting 0)
   = [IDownloading; IPending; IPending] ∧
   view m' = (QPaused, ["q"], [IPending; IPending; IPending], [], []) ∧
   view (run m' [Elapse 1000; Interval "q"])
   = (QPaused, ["q"], [IPending; IPending; IPending], [], []) ∧
   view (run m' [Hide; Show])
   = (QRunning, [], [IPending; IPending; IPending], [], []) ∧
   view (run m' [Hide; Show; Interval "q"])
   = (QRunning, [], [IDownloading; IPending; IPending], [5], ["q_item_1000_1"]) ∧
   view (run m' [GoOffline; GoOnline; Interval "q"])
   = (QRunning, [], [IDownloading; IPending; IPending], [5], ["q_item_1000_1"]) ∧
   view (run m' [Show; Interval "q"])
   = (QRunning, [], [IDownloading; IPending; IPending], [5], ["q_item_1000_1"]) ∧
   view (run m' [GoOnline; Interval "q"])
   = (QRunning, [], [IDownloading; IPending; IPending], [5], ["q_item_1000_1"])).
Proof.
  split; [|by vm_compute].
  intros m store ms Hstore Hnodup m'.
  set (saved := snapshot m <$> (snd <$> queues m)).
  set (stored := {| stored_data := saved; stored_expires := now m + expire |}).
  set (clock := now m + Z.max 0 ms).
  assert (m' = loadPersistedQueues
                 (set_persistenceManager (Some (Some stored)) (newManager clock))) as ->.
  { unfold m', restart, persistQueues. rewrite Hstore. done. }
  unfold loadPersistedQueues, getDownloadQueue. simpl.
  assert (0 < expire) as Hexpire by done.
  split.
  - intros Hms. rewrite decide_False by lia.
    change (foldl _ ?m0 ?l) with (loadAll m0 l).
    set (m0 := set_persistenceManager _ _).
    split.
    + intros id ref Hin.
      destruct (loadAll_allRestored saved m0 (allRestored_empty m0 eq_refl) id ref Hin)
        as [items Hres].
      apply restoredAs_itemsOf in Hres as (? & ? & ? & -> & ?). done.
    + intros id ref Hin.
      destruct (loadAll_registeredAs saved m0 (snapshot m ref)) as (ref' & Hget & Hres).
      * unfold saved. rewrite <-!list_fmap_compose. exact Hnodup.
      * unfold saved. apply list_elem_of_fmap_2.
        apply list_elem_of_fmap. by exists (id, ref).
      * exists ref'. apply restoredAs_itemsOf in Hres as (? & ? & ? & ? & ?). done.
  - intros Hms Hstamp. by rewrite decide_True by (split; [done|lia]).
Qed.

Lemma C5_restored_queue_resumes_on_events_witness :
  let m' := restart (step (persistQueues true demoPersisting) (Elapse 86400000)) in
  (∀ id ref, (id, ref) ∈ queues m' →
     queue_status (getQueueObj m' ref) = QPaused ∧
     queue_activeDownloads (getQueueObj m' ref) = [] ∧
     id ∈ pausedQueues m' ∧
     Forall (λ it, item_status it ≠ IDownloading) (itemsOf m' (getQueueObj m' ref))) ∧
  queues (restart (step (persistQueues true demoPersisting) (Elapse 691200000))) = [].
Proof.
  split.
  - apply (proj1 C5_restored_queue_resumes_on_events demoPersisting None 86400000).
    + by vm_compute.
    + vm_compute. apply NoDup_singleton.
    + by vm_compute.
  - apply (proj1 C5_restored_queue_resumes_on_events demoPersisting None 691200000).
    + by vm_compute.
    + vm_compute. apply NoDup_singleton.
    + by vm_compute.
    + by vm_compute.
Defined.

(** *** Failing [addToQueue] calls *)

(** C9. [addToQueue] throws exactly when the queue is unknown or the new
    items would not fit under [maxQueueSize], and a call that throws leaves
    the manager as it was: no item is appended, no counter and no statistic
    of any queue changes. *)
Theorem C9_addToQueue_atomic m queueId items :
  (addToQueueFails m queueId items → ∃ e, addToQueue queueId items m = (Throw e, m)) ∧
  (∀ e m', addToQueue queueId items m = (Throw e, m') →
           m' = m ∧ addToQueueFails m queueId items).
Proof.
  unfold addToQueueFails, addToQueue.
  destruct (getQueue queueId m) as [queue|].
  - rewrite length_imap. case_decide as Hsize; split.
    + intros _. by eexists.
    + by intros e m' [= <- <-].
    + intros ?. lia.
    + by intros e m' [=].
  - split; [intros _; by eexists|]. by intros e m' [= <- <-].
Qed.

Lemma C9_addToQueue_atomic_witness :
  (∃ e, addToQueue "missing" [demoItem 1] demoAdded = (Throw e, demoAdded)) ∧
  (∃ e, addToQueue "q" (replicate 998 (demoItem 1)) demoAdded = (Throw e, demoAdded)).
Proof.
  split.
  - apply (proj1 (C9_addToQueue_atomic demoAdded "missing" [demoItem 1])). by vm_compute.
  - apply (proj1 (C9_addToQueue_atomic demoAdded "q" (replicate 998 (demoItem 1)))).
    by vm_compute.
Defined.

(** *** Backoff *)

Lemma scheduleRetry_timers item queue m :
  timers (scheduleRetry item queue m)
  = timers m ++ [{| timer_action := RetryTimer item queue;
                    timer_delay := opt_retryDelay (queue_options (getQueueObj m queue))
                                   * 2 ^ (item_attempts (getItem m item) - 1);
                    timer_setAt := now m |}].
Proof. done. Qed.

Lemma backoff_monotone (delay a a' : Z) :
  0 ≤ delay → 1 ≤ a → a ≤ a' → delay * 2 ^ (a - 1) ≤ delay * 2 ^ (a' - 1).
Proof.
  intros Hd Ha Haa'. apply Z.mul_le_mono_nonneg_l; [done|].
  apply Z.pow_le_mono_r; lia.
Qed.

Lemma fireTimer_not_due k t m :
  timers m !! k = Some t → now m < timer_setAt t + timer_delay t → fireTimer k m = m.
Proof.
  intros Ht Hdue. unfold fireTimer. rewrite Ht. by rewrite decide_False by lia.
Qed.

Lemma fireTimer_retry k t item queue it m :
  timers m !! k = Some t →
  timer_action t = RetryTimer item queue →
  timer_setAt t + timer_delay t ≤ now m →
  queue_status (getQueueObj m queue) = QRunning →
  itemHeap m !! item = Some it →
  getItem (fireTimer k m) item = set_item_error None (set_item_status IPending it).
Proof.
  intros Ht Hact Hdue Hrun Hit. unfold fireTimer. rewrite Ht, Hact.
  rewrite decide_True by done. unfold retryCallback.
  rewrite decide_True by done.
  unfold getItem; simpl. by erewrite lookup_total_alter_Some by done.
Qed.

(** **** What a step keeps *)

Lemma quiet_refl m : quiet m m.
Proof. by split. Qed.

Lemma quiet_trans m1 m2 m3 : quiet m1 m2 → quiet m2 m3 → quiet m1 m3.
Proof. intros [? ?] [? ?]. split; [congruence|by etrans]. Qed.

Lemma shape_attempts m m' i :
  shape m' = shape m → item_attempts (getItem m' i) = item_attempts (getItem m i).
Proof.
  intros [= Hatt _ _ _]. unfold getItem. rewrite !list_lookup_total_alt.
  apply (f_equal (λ l, l !! i)) in Hatt. rewrite !list_lookup_fmap in Hatt.
  destruct (itemHeap m' !! i), (itemHeap m !! i); simplify_eq/=; done.
Qed.

Lemma shape_validItem m m' i : shape m' = shape m → validItem m' i ↔ validItem m i.
Proof.
  intros [= Hatt _ _ _]. unfold validItem.
  apply (f_equal length) in Hatt. rewrite !length_fmap in Hatt. by rewrite Hatt.
Qed.

Lemma shape_validQueue m m' q : shape m' = shape m → validQueue m' q ↔ validQueue m q.
Proof.
  intros [= _ Hq _ _]. unfold validQueue.
  apply (f_equal length) in Hq. rewrite !length_fmap in Hq. by rewrite Hq.
Qed.

Lemma shape_options m m' q :
  shape m' = shape m → queue_options (getQueueObj m' q) = queue_options (getQueueObj m q).
Proof.
  intros [= _ Hq _ _]. unfold getQueueObj. rewrite !list_lookup_total_alt.
  apply (f_equal (λ l, l !! q)) in Hq. rewrite !list_lookup_fmap in Hq.
  destruct (queueHeap m' !! q), (queueHeap m !! q); simplify_eq/=; done.
Qed.

Lemma shape_queue_items m m' :
  shape m' = shape m → queue_items <$> queueHeap m' = queue_items <$> queueHeap m.
Proof.
  intros [= _ Hq _ _].
  apply (f_equal (fmap snd)) in Hq. by rewrite <-!list_fmap_compose in Hq.
Qed.

Lemma quiet_extends m m' : quiet m m' → extends m m'.
Proof.
  intros [Hshape _]. pose proof Hshape as [= Hatt Hq _ Hstarted].
  apply (f_equal length) in Hatt. apply (f_equal length) in Hq.
  rewrite !length_fmap in Hatt. rewrite !length_fmap in Hq.
  unfold extends. rewrite Hstarted, Hatt, Hq. split_and!; [done..|].
  intros q _. by apply shape_options.
Qed.

Lemma quiet_wellFormed m m' : quiet m m' → wellFormed m → wellFormed m'.
Proof.
  intros [Hshape Hqueues] (Hcount & Hstarted & Hitems & Hreg & Htasks).
  pose proof Hshape as [= _ _ Htasks' Hstarted'].
  unfold wellFormed, executions. rewrite Htasks', Hstarted'. split_and!.
  - intros i Hi%(shape_validItem m m') ; [|done].
    rewrite (shape_attempts m m') by done. by apply Hcount.
  - eapply Forall_impl; [exact Hstarted|]. intros i ?. by apply (shape_validItem m m').
  - apply Forall_forall. intros q' Hq' .
    assert (queue_items q' ∈ queue_items <$> queueHeap m) as Hin.
    { rewrite <-(shape_queue_items m m') by done. by apply list_elem_of_fmap_2. }
    apply list_elem_of_fmap in Hin as (q & -> & Hq).
    rewrite Forall_forall in Hitems. specialize (Hitems q Hq).
    eapply Forall_impl; [exact Hitems|]. intros i ?. by apply (shape_validItem m m').
  - apply Forall_forall. intros kv Hkv%Hqueues.
    rewrite Forall_forall in Hreg. by apply (shape_validQueue m m'), Hreg.
  - eapply Forall_impl; [exact Htasks|]. intros t (? & ? & Hrest).
    split_and!; [by apply (shape_validQueue m m')|done|].
    eapply Forall_impl; [exact Hrest|]. intros i ?. by apply (shape_validItem m m').
Qed.

Lemma fmap_alter_same {A B} (g : A → B) (f : A → A) r (l : list A) :
  (∀ x, g (f x) = g x) → g <$> alter f r l = g <$> l.
Proof.
  intros Hg. apply list_eq. intros i. rewrite !list_lookup_fmap, list_lookup_alter.
  case_decide as Hr; [|done]. rewrite Hr. destruct (l !! i); simpl; [|done]. f_equal. apply Hg.
Qed.

Lemma quiet_frame m m' :
  itemHeap m' = itemHeap m → queueHeap m' = queueHeap m → tasks m' = tasks m →
  itemEvents "started" m' = itemEvents "started" m → queues m' ⊆ queues m →
  quiet m m'.
Proof. intros Hi Hq Ht He ?. split; [|done]. unfold shape. by rewrite Hi, Hq, Ht, He. Qed.

Lemma quiet_updItem r f m :
  (∀ it, item_attempts (f it) = item_attempts it) → quiet m (updItem r f m).
Proof.
  intros Hf. split; [|done]. unfold shape, updItem. simpl.
  by rewrite fmap_alter_same.
Qed.

Lemma quiet_updQueue r g m :
  (∀ q, queue_options (g q) = queue_options q ∧ queue_items (g q) = queue_items q) →
  quiet m (updQueue r g m).
Proof.
  intros Hg. split; [|done]. unfold shape, updQueue. simpl.
  rewrite fmap_alter_same; [done|]. intros q. by destruct (Hg q) as [-> ->].
Qed.

Lemma quiet_notifyItemEvent ty item queue m :
  ty ≠ "started" → quiet m (notifyItemEvent ty item queue m).
Proof.
  intros Hty. apply quiet_frame; try done.
  rewrite itemEvents_notifyItemEvent. rewrite decide_False by done. apply app_nil_r.
Qed.

Lemma quiet_notifyQueueEvent ty queueId m : quiet m (notifyQueueEvent ty queueId m).
Proof.
  apply quiet_frame; try done. unfold itemEvents, notifyQueueEvent. simpl.
  rewrite omap_app. simpl. apply app_nil_r.
Qed.

Lemma quiet_map_delete {V} k (l : list (string * V)) : map_delete k l ⊆ l.
Proof. intros x Hx. unfold map_delete in Hx. by apply list_elem_of_filter in Hx as [_ ?]. Qed.

Ltac hush :=
  repeat first
    [ apply quiet_refl
    | assumption
    | match goal with
      | |- quiet ?m (updItem _ _ ?m1) =>
          apply (quiet_trans m m1); [|apply quiet_updItem; done]
      | |- quiet ?m (updQueue _ _ ?m1) =>
          apply (quiet_trans m m1); [|apply quiet_updQueue; intros; by split]
      | |- quiet ?m (notifyItemEvent _ _ _ ?m1) =>
          apply (quiet_trans m m1); [|apply quiet_notifyItemEvent; done]
      | |- quiet ?m (notifyQueueEvent _ _ ?m1) =>
          apply (quiet_trans m m1); [|apply quiet_notifyQueueEvent]
      | |- quiet ?m (setTimeout _ _ ?m1) =>
          apply (quiet_trans m m1); [|by apply quiet_frame]
      | |- quiet ?m (set_statistics _ ?m1) =>
          apply (quiet_trans m m1); [|by apply quiet_frame]
      | |- quiet ?m (set_activeDownloads _ ?m1) =>
          apply (quiet_trans m m1); [|by apply quiet_frame]
      | |- quiet ?m (set_pausedQueues _ ?m1) =>
          apply (quiet_trans m m1); [|by apply quiet_frame]
      | |- quiet ?m (set_completedQueues _ ?m1) =>
          apply (quiet_trans m m1); [|by apply quiet_frame]
      | |- quiet ?m (set_timers _ ?m1) =>
          apply (quiet_trans m m1); [|by apply quiet_frame]
      | |- quiet ?m (set_now _ ?m1) =>
          apply (quiet_trans m m1); [|by apply quiet_frame]
      | |- quiet ?m (set_onLine _ ?m1) =>
          apply (quiet_trans m m1); [|by apply quiet_frame]
      | |- quiet ?m (set_hidden _ ?m1) =>
          apply (quiet_trans m m1); [|by apply quiet_frame]
      | |- quiet ?m (set_queues (map_delete _ (queues ?m1)) ?m1) =>
          apply (quiet_trans m m1);
          [|apply quiet_frame; [done..|apply quiet_map_delete]]
      | |- quiet _ (if ?c then _ else _) => destruct c
      end ].

Lemma quiet_handleDownloadComplete item queue result m :
  quiet m (handleDownloadComplete item queue result m).
Proof. unfold handleDownloadComplete. hush. Qed.

Lemma quiet_handleDownloadError item queue error m :
  quiet m (handleDownloadError item queue error m).
Proof. unfold handleDownloadError, scheduleRetry. hush. Qed.

Lemma quiet_retryCallback item queue m : quiet m (retryCallback item queue m).
Proof. unfold retryCallback. hush. Qed.

Lemma quiet_archiveCallback queue m : quiet m (archiveCallback queue m).
Proof.
  unfold archiveCallback. apply quiet_frame; try done. simpl. apply quiet_map_delete.
Qed.

Lemma quiet_completeQueue queue m : quiet m (completeQueue queue m).
Proof. unfold completeQueue. hush. Qed.

Lemma quiet_fireTimer k m : quiet m (fireTimer k m).
Proof.
  unfold fireTimer. destruct (timers m !! k) as [t|]; [|apply quiet_refl].
  case_decide; [|apply quiet_refl].
  destruct (timer_action t).
  - eapply quiet_trans; [|apply quiet_retryCallback]. hush.
  - eapply quiet_trans; [|apply quiet_archiveCallback]. hush.
Qed.

Lemma cancelDownloads_id (ids : list string) m :
  foldl (λ m id, cancelDownload id m) m ids = m.
Proof. induction ids as [|id ids IH]; [reflexivity|exact IH]. Qed.

Lemma quiet_pauseQueue queueId reason m : quiet m (pauseQueue queueId reason m).2.
Proof.
  unfold pauseQueue. destruct (getQueue queueId m); [|apply quiet_refl].
  simpl. rewrite cancelDownloads_id. hush.
Qed.

Lemma quiet_resetFold refs : ∀ m, quiet m (foldl resetStep m refs).
Proof.
  induction refs as [|r refs IH]; intros m; simpl; [apply quiet_refl|].
  eapply quiet_trans; [|apply IH]. unfold resetStep. hush.
Qed.

Lemma quiet_resumeQueue queueId m : quiet m (resumeQueue queueId m).2.
Proof.
  unfold resumeQueue. destruct (getQueue queueId m); [|apply quiet_refl].
  case_decide; [apply quiet_refl|]. simpl.
  change (foldl _ ?m0 ?refs) with (foldl resetStep m0 refs).
  eapply quiet_trans; [|apply quiet_notifyQueueEvent].
  eapply quiet_trans; [|apply quiet_resetFold]. hush.
Qed.

Lemma quiet_stopQueue queueId m : quiet m (stopQueue queueId m).2.
Proof.
  unfold stopQueue. destruct (getQueue queueId m); [|apply quiet_refl].
  simpl. rewrite cancelDownloads_id. hush.
Qed.

Lemma forEachM_cons {A} (body : A → M unit) x l m :
  forEachM body (x :: l) m
  = match body x m with
    | (Ok _, m') => forEachM body l m'
    | (Throw e, m') => (Throw e, m')
    end.
Proof. done. Qed.

Lemma quiet_forEachM {A} (body : A → M unit) l :
  (∀ x m, quiet m (body x m).2) → ∀ m, quiet m (forEachM body l m).2.
Proof.
  intros Hbody. induction l as [|x l IH]; intros m; [apply quiet_refl|].
  rewrite forEachM_cons. specialize (Hbody x m).
  destruct (body x m) as [[]?]; simpl in *; [|done].
  eapply quiet_trans; [done|apply IH].
Qed.

Lemma quiet_pauseAllQueues reason m : quiet m (pauseAllQueues reason m).2.
Proof.
  unfold pauseAllQueues. apply quiet_forEachM. intros queueId m'.
  case_decide; [apply quiet_refl|apply quiet_pauseQueue].
Qed.

Lemma quiet_resumeAllQueues reason m : quiet m (resumeAllQueues reason m).2.
Proof. unfold resumeAllQueues. apply quiet_forEachM. intros. apply quiet_resumeQueue. Qed.

Lemma quiet_handleNetworkChange isOnline m m0 :
  quiet m m0 → quiet m (handleNetworkChange isOnline m0).2.
Proof.
  intros Hm. eapply quiet_trans; [done|]. unfold handleNetworkChange.
  destruct isOnline; [destruct (autoResume _); [apply quiet_resumeAllQueues|apply quiet_refl]|].
  apply quiet_pauseAllQueues.
Qed.

Lemma quiet_onVisibilityChange m m0 : quiet m m0 → quiet m (onVisibilityChange m0).2.
Proof.
  intros Hm. eapply quiet_trans; [done|]. unfold onVisibilityChange.
  destruct (hidden m0); [apply quiet_pauseAllQueues|apply quiet_resumeAllQueues].
Qed.

(** **** The invariant *)

Lemma extends_refl m : extends m m.
Proof. unfold extends. split_and!; done. Qed.

Lemma extends_trans m1 m2 m3 : extends m1 m2 → extends m2 m3 → extends m1 m3.
Proof.
  intros (He1 & Hi1 & Hq1 & Ho1) (He2 & Hi2 & Hq2 & Ho2). unfold extends.
  split_and!; [by etrans|lia|lia|].
  intros q Hq. rewrite Ho2, Ho1; [done|done|]. unfold validQueue in *. lia.
Qed.

Lemma attempts_lookup m i :
  validItem m i →
  (item_attempts <$> itemHeap m) !! i = Some (item_attempts (getItem m i)).
Proof.
  intros [it Hit]%lookup_lt_is_Some. rewrite list_lookup_fmap, Hit. simpl.
  unfold getItem. by rewrite (list_lookup_total_correct _ _ _ Hit).
Qed.

Lemma options_lookup m q :
  validQueue m q →
  ((λ q, (queue_options q, queue_items q)) <$> queueHeap m) !! q
  = Some (queue_options (getQueueObj m q), queue_items (getQueueObj m q)).
Proof.
  intros [x Hx]%lookup_lt_is_Some. rewrite list_lookup_fmap, Hx. simpl.
  unfold getQueueObj. by rewrite (list_lookup_total_correct _ _ _ Hx).
Qed.

Lemma executions_snoc i item m m' :
  itemEvents "started" m' = itemEvents "started" m ++ [item] →
  executions i m' = executions i m + (if decide (i = item) then 1 else 0).
Proof.
  intros Hst. unfold executions. rewrite Hst, filter_app, length_app.
  rewrite filter_cons, filter_nil.
  destruct (decide (i = item)) as [->|Hne].
  - rewrite decide_True by done. simpl. lia.
  - rewrite decide_False by done. simpl. lia.
Qed.

Lemma startDownload_facts item queue m :
  let m' := startDownload item queue m in
  item_attempts <$> itemHeap m' = alter (λ a, a + 1) item (item_attempts <$> itemHeap m) ∧
  (λ q, (queue_options q, queue_items q)) <$> queueHeap m'
  = (λ q, (queue_options q, queue_items q)) <$> queueHeap m ∧
  tasks m' = tasks m ∧ queues m' = queues m ∧
  itemEvents "started" m' = itemEvents "started" m ++ [item].
Proof.
  intros m'. split_and!; [| |apply startDownload_tasks| |apply startDownload_started].
  - unfold m', startDownload. case_decide; simpl;
      by rewrite (list_fmap_alter item_attempts _ (λ a, a + 1)) by by apply Forall_true.
  - unfold m', startDownload. case_decide; simpl; by rewrite fmap_alter_same.
  - unfold m', startDownload. by case_decide.
Qed.

Lemma extends_startDownload item queue m : extends m (startDownload item queue m).
Proof.
  destruct (startDownload_facts item queue m) as (Hatt & Hq & _ & _ & Hst).
  apply (f_equal length) in Hatt. rewrite length_alter, !length_fmap in Hatt.
  pose proof (f_equal length Hq) as Hlen. rewrite !length_fmap in Hlen.
  unfold extends. rewrite Hst, Hatt, Hlen. split_and!; [by apply prefix_app_r|done|done|].
  intros q Hvalid.
  assert (validQueue (startDownload item queue m) q) as Hvalid' by (unfold validQueue in *; lia).
  apply options_lookup in Hvalid, Hvalid'. rewrite Hq in Hvalid'. congruence.
Qed.

Lemma wellFormed_startDownload item queue m :
  wellFormed m → validItem m item → wellFormed (startDownload item queue m).
Proof.
  intros (Hcount & Hstarted & Hitems & Hreg & Htasks) Hitem.
  destruct (startDownload_facts item queue m) as (Hatt & Hq & Ht & Hqs & Hst).
  set (m' := startDownload item queue m) in *.
  assert (∀ i, validItem m' i ↔ validItem m i) as Hvalid.
  { intros i. unfold validItem. apply (f_equal length) in Hatt.
    rewrite length_alter, !length_fmap in Hatt. by rewrite Hatt. }
  assert (∀ q, validQueue m' q ↔ validQueue m q) as HvalidQ.
  { intros q. unfold validQueue. apply (f_equal length) in Hq.
    rewrite !length_fmap in Hq. by rewrite Hq. }
  unfold wellFormed. rewrite Ht, Hqs. split_and!.
  - intros i Hi. rewrite (executions_snoc i item m m') by done.
    pose proof (attempts_lookup m' i Hi) as Hlook. rewrite Hatt in Hlook.
    apply Hvalid in Hi. rewrite <-Hcount by done.
    rewrite list_lookup_alter in Hlook.
    pose proof (attempts_lookup m i Hi) as Hold.
    destruct (decide (item = i)) as [->|Hne].
    + rewrite decide_True by done. rewrite Hold in Hlook. simpl in Hlook. by injection Hlook.
    + rewrite decide_False by done. rewrite Hold in Hlook. injection Hlook. lia.
  - rewrite Hst. apply Forall_app. split; [|by apply Forall_singleton, Hvalid].
    eapply Forall_impl; [exact Hstarted|]. intros i ?. by apply Hvalid.
  - apply Forall_forall. intros q' Hq'.
    assert (queue_items q' ∈ queue_items <$> queueHeap m) as Hin.
    { apply (f_equal (fmap snd)) in Hq. rewrite <-!list_fmap_compose in Hq.
      change (snd ∘ _) with queue_items in Hq. rewrite <-Hq.
      by apply list_elem_of_fmap_2. }
    apply list_elem_of_fmap in Hin as (q & -> & Hin).
    rewrite Forall_forall in Hitems. specialize (Hitems q Hin).
    eapply Forall_impl; [exact Hitems|]. intros i ?. by apply Hvalid.
  - eapply Forall_impl; [exact Hreg|]. intros kv ?. by apply HvalidQ.
  - eapply Forall_impl; [exact Htasks|]. intros t (? & ? & Hrest).
    split_and!; [by apply HvalidQ|rewrite Hst; apply elem_of_app; by left|].
    eapply Forall_impl; [exact Hrest|]. intros i ?. by apply Hvalid.
Qed.

Lemma wellFormed_set_tasks v m :
  wellFormed m → Forall (taskOk m) v → wellFormed (set_tasks v m).
Proof. intros (? & ? & ? & ? & ?) Hv. by split_and!. Qed.

Lemma wellFormed_tasks m : wellFormed m → Forall (taskOk m) (tasks m).
Proof. by intros (? & ? & ? & ? & ?). Qed.

Lemma map_get_elem_of {V} k (v : V) l : map_get k l = Some v → (k, v) ∈ l.
Proof.
  induction l as [|[k' v'] l IH]; simpl; [done|].
  case_decide; [intros [= ->]; subst; apply list_elem_of_here|].
  intros ?. by apply list_elem_of_further, IH.
Qed.

Lemma wellFormed_getQueue m queueId queue :
  wellFormed m → getQueue queueId m = Some queue → validQueue m queue.
Proof.
  intros (_ & _ & _ & Hreg & _) Hget%map_get_elem_of. rewrite Forall_forall in Hreg.
  apply (Hreg (queueId, queue) Hget).
Qed.

Lemma wellFormed_queue_items m queue :
  wellFormed m → Forall (validItem m) (queue_items (getQueueObj m queue)).
Proof.
  intros (_ & _ & Hitems & _). unfold getQueueObj. rewrite list_lookup_total_alt.
  destruct (queueHeap m !! queue) as [q|] eqn:Hq; simpl; [|constructor].
  rewrite Forall_forall in Hitems. eapply Hitems, list_elem_of_lookup_2, Hq.
Qed.

Lemma validItem_startDownload item queue m i :
  validItem (startDownload item queue m) i ↔ validItem m i.
Proof.
  destruct (startDownload_facts item queue m) as (Hatt & _).
  apply (f_equal length) in Hatt. rewrite length_alter, !length_fmap in Hatt.
  unfold validItem. by rewrite Hatt.
Qed.

Lemma validQueue_startDownload item queue m q :
  validQueue (startDownload item queue m) q ↔ validQueue m q.
Proof.
  destruct (startDownload_facts item queue m) as (_ & Hqs & _).
  apply (f_equal length) in Hqs. rewrite !length_fmap in Hqs.
  unfold validQueue. by rewrite Hqs.
Qed.

Lemma taskOk_started item queue m rest :
  validQueue m queue → Forall (validItem m) rest →
  taskOk (startDownload item queue m)
    {| task_queue := queue; task_item := item; task_rest := rest |}.
Proof.
  intros Hq Hrest. unfold taskOk. simpl. split_and!.
  - by apply validQueue_startDownload.
  - rewrite startDownload_started. apply elem_of_app. right. apply list_elem_of_here.
  - eapply Forall_impl; [exact Hrest|]. intros i ?. by apply validItem_startDownload.
Qed.

Lemma wellFormed_processQueue queue m :
  wellFormed m → validQueue m queue → wellFormed (processQueue queue m).
Proof.
  intros Hm Hqueue. unfold processQueue. case_decide; [done|].
  destruct (pendingItems m (getQueueObj m queue)) as [|item rest] eqn:Hsel.
  { case_decide; [|done]. eapply quiet_wellFormed; [apply quiet_completeQueue|done]. }
  assert (Forall (validItem m) (item :: rest)) as Hvalid.
  { rewrite <-Hsel. apply Forall_forall. intros r [Hr _]%pendingItems_pending.
    pose proof (wellFormed_queue_items m queue Hm) as Hitems.
    rewrite Forall_forall in Hitems. by apply Hitems. }
  apply Forall_cons in Hvalid as [Hitem Hrest].
  pose proof (wellFormed_startDownload item queue m Hm Hitem) as Hm'.
  apply wellFormed_set_tasks; [done|].
  apply Forall_app. split; [by apply wellFormed_tasks|]. apply Forall_singleton.
  by apply taskOk_started.
Qed.

Lemma extends_set_tasks v m m' : extends m m' → extends m (set_tasks v m').
Proof. done. Qed.

Lemma extends_processQueue queue m : extends m (processQueue queue m).
Proof.
  unfold processQueue. case_decide; [apply extends_refl|].
  destruct (pendingItems _ _).
  - case_decide; [|apply extends_refl]. apply quiet_extends, quiet_completeQueue.
  - apply extends_set_tasks, extends_startDownload.
Qed.

Lemma wellFormed_settle t outcome m : wellFormed m → wellFormed (settle t outcome m).
Proof.
  intros Hm. unfold settle. destruct (tasks m !! t) as [task|] eqn:Ht; [|done].
  set (m1 := match outcome with inl _ => _ | inr _ => _ end).
  assert (quiet m m1) as Hquiet.
  { unfold m1. destruct outcome;
      [apply quiet_handleDownloadComplete|apply quiet_handleDownloadError]. }
  pose proof (quiet_wellFormed _ _ Hquiet Hm) as Hm1.
  assert (tasks m1 = tasks m) as Htasks by (by destruct Hquiet as [[= _ _ ? _] _]).
  pose proof (wellFormed_tasks m1 Hm1) as Hok.
  assert (taskOk m1 task) as (Hq & _ & Hrest).
  { rewrite Forall_forall in Hok. apply Hok. rewrite Htasks.
    by eapply list_elem_of_lookup_2. }
  destruct (task_rest task) as [|next rest].
  - apply wellFormed_set_tasks; [done|]. by apply Forall_delete.
  - apply Forall_cons in Hrest as [Hnext Hrest].
    apply wellFormed_set_tasks; [by apply wellFormed_startDownload|].
    rewrite startDownload_tasks. apply Forall_insert.
    + pose proof (wellFormed_tasks _ (wellFormed_startDownload next (task_queue task)
                                         m1 Hm1 Hnext)) as Hok'.
      by rewrite startDownload_tasks in Hok'.
    + by apply taskOk_started.
Qed.

Lemma extends_settle t outcome m : extends m (settle t outcome m).
Proof.
  unfold settle. destruct (tasks m !! t) as [task|]; [|apply extends_refl].
  set (m1 := match outcome with inl _ => _ | inr _ => _ end).
  assert (extends m m1) as Hm1.
  { apply quiet_extends. unfold m1. destruct outcome;
      [apply quiet_handleDownloadComplete|apply quiet_handleDownloadError]. }
  destruct (task_rest task); apply extends_set_tasks; [done|].
  eapply extends_trans; [done|apply extends_startDownload].
Qed.

Lemma wellFormed_startQueue queueId m : wellFormed m → wellFormed (startQueue queueId m).2.
Proof.
  intros Hm. unfold startQueue. destruct (getQueue queueId m) as [queue|] eqn:Hget; [|done].
  case_decide; [done|]. simpl.
  set (m1 := notifyQueueEvent _ _ _).
  assert (quiet m m1) as Hquiet by (unfold m1; hush).
  apply wellFormed_processQueue; [by eapply quiet_wellFormed|].
  apply (shape_validQueue m m1); [by destruct Hquiet|]. by eapply wellFormed_getQueue.
Qed.

Lemma extends_startQueue queueId m : extends m (startQueue queueId m).2.
Proof.
  unfold startQueue. destruct (getQueue queueId m) as [queue|]; [|apply extends_refl].
  case_decide; [apply extends_refl|]. simpl.
  eapply extends_trans; [|apply extends_processQueue]. apply quiet_extends. hush.
Qed.

Lemma executions_unstarted i m :
  Forall (validItem m) (itemEvents "started" m) → ¬ validItem m i → executions i m = 0.
Proof.
  intros Hstarted Hi. unfold executions.
  induction Hstarted as [|r l Hr _ IH]; [done|].
  rewrite filter_cons. case_decide; [by subst|done].
Qed.

(** The heaps grow: new items that were never attempted, new queues. *)
Lemma wellFormed_grow m m' new :
  wellFormed m →
  itemHeap m' = itemHeap m ++ new → Forall (λ it, item_attempts it = 0) new →
  itemEvents "started" m' = itemEvents "started" m →
  (length (queueHeap m) ≤ length (queueHeap m'))%nat →
  Forall (λ q, Forall (validItem m') (queue_items q)) (queueHeap m') →
  Forall (λ kv, validQueue m' kv.2) (queues m') →
  tasks m' = tasks m →
  wellFormed m'.
Proof.
  intros (Hcount & Hstarted & Hitems & Hreg & Htasks) Hheap Hnew Hst Hlen Hitems' Hreg' Ht.
  assert (∀ i, validItem m i → validItem m' i) as Hvalid.
  { intros i. unfold validItem. rewrite Hheap, length_app. lia. }
  unfold wellFormed, executions. rewrite Hst, Ht. split_and!; [|..|done|done|].
  - intros i Hi. fold (executions i m).
    destruct (decide (i < length (itemHeap m))%nat) as [Hold|Hfresh].
    + rewrite <-Hcount by done. unfold getItem. rewrite Hheap.
      by rewrite lookup_total_app_l.
    + rewrite executions_unstarted by done.
      unfold validItem in *. rewrite Hheap, length_app in Hi.
      unfold getItem. rewrite Hheap, lookup_total_app_r by lia.
      rewrite Forall_forall in Hnew. apply Hnew, list_elem_of_lookup_total_2. lia.
  - eapply Forall_impl; [exact Hstarted|]. done.
  - eapply Forall_impl; [exact Htasks|]. intros t (Hq & ? & Hrest).
    split_and!; [unfold validQueue in *; lia|done|].
    eapply Forall_impl; [exact Hrest|]. done.
Qed.

Lemma wellFormed_createQueue queueId options m :
  wellFormed m → wellFormed (createQueue queueId options m).2.
Proof.
  intros Hm. unfold createQueue. case_decide; [done|]. cbn zeta.
  set (queue := {| queue_id := queueId |}).
  set (m1 := set_queues _ _).
  assert (wellFormed m1) as Hm1.
  { apply (wellFormed_grow m m1 []); [done|by rewrite app_nil_r|done|done| | | |done].
    - unfold m1. simpl. rewrite length_app. lia.
    - unfold m1. simpl. apply Forall_app. split; [|by apply Forall_singleton].
      by destruct Hm as (_ & _ & ? & _).
    - unfold m1. simpl. apply Forall_forall. intros [k v] Hkv. unfold validQueue. simpl.
      rewrite length_app. simpl.
      apply elem_of_map_set in Hkv as [[_ ->]|Hkv]; [lia|].
      destruct Hm as (_ & _ & _ & Hreg & _). rewrite Forall_forall in Hreg.
      specialize (Hreg _ Hkv). unfold validQueue in Hreg. simpl in Hreg. lia. }
  destruct (default true (in_autoStart options)).
  - pose proof (wellFormed_startQueue queueId m1 Hm1) as Hstart.
    destruct (startQueue queueId m1) as [[]?]; simpl in *; [|done].
    eapply quiet_wellFormed; [apply quiet_notifyQueueEvent|done].
  - simpl. eapply quiet_wellFormed; [apply quiet_notifyQueueEvent|done].
Qed.

Lemma extends_createQueue queueId options m : extends m (createQueue queueId options m).2.
Proof.
  unfold createQueue. case_decide; [apply extends_refl|]. cbn zeta.
  set (queue := {| queue_id := queueId |}).
  set (m1 := set_queues _ _).
  assert (extends m m1) as Hm1.
  { unfold extends, m1. simpl. rewrite length_app. split_and!; [done|done|lia|].
    intros q Hq. unfold getQueueObj. simpl. by rewrite lookup_total_app_l. }
  destruct (default true (in_autoStart options)).
  - pose proof (extends_startQueue queueId m1) as Hstart.
    destruct (startQueue queueId m1) as [[]?]; simpl in *; [|by eapply extends_trans].
    eapply extends_trans; [|apply quiet_extends, quiet_notifyQueueEvent].
    by eapply extends_trans.
  - simpl. eapply extends_trans; [done|apply quiet_extends, quiet_notifyQueueEvent].
Qed.

Lemma wellFormed_addToQueue queueId items m :
  wellFormed m → wellFormed (addToQueue queueId items m).2.
Proof.
  intros Hm. unfold addToQueue. destruct (getQueue queueId m) as [queue|]; [|done].
  case_decide; [done|]. cbn zeta. unfold snd.
  set (queueItems := imap _ items).
  set (m' := notifyQueueEvent _ _ _).
  apply (wellFormed_grow m m' queueItems); [done|done| |..|done].
  - unfold queueItems. apply Forall_forall.
    intros it [i Hit]%list_elem_of_lookup. rewrite list_lookup_imap in Hit.
    destruct (items !! i); simplify_eq/=. done.
  - unfold m', itemEvents, notifyQueueEvent, sortQueueByPriority. simpl.
    rewrite omap_app. simpl. apply app_nil_r.
  - unfold m', sortQueueByPriority. simpl. by rewrite !length_alter.
  - unfold m', sortQueueByPriority, updQueue. simpl. rewrite list_alter_alter_eq.
    destruct Hm as (_ & _ & Hitems & _).
    apply Forall_alter.
    + eapply Forall_impl; [exact Hitems|]. intros q Hq.
      eapply Forall_impl; [exact Hq|]. intros i. unfold validItem. simpl.
      rewrite length_app. lia.
    + intros q _ Hq. unfold compose. simpl. rewrite Forall_forall.
      intros i Hi%elem_of_js_sort. apply elem_of_app in Hi as [Hi|Hi].
      * rewrite Forall_forall in Hq. by apply Hq.
      * apply elem_of_seq in Hi. unfold validItem. simpl. rewrite length_app. lia.
  - unfold m', sortQueueByPriority. simpl.
    destruct Hm as (_ & _ & _ & Hreg & _).
    eapply Forall_impl; [exact Hreg|]. intros kv. unfold validQueue. simpl.
    by rewrite !length_alter.
Qed.

Lemma extends_addToQueue queueId items m : extends m (addToQueue queueId items m).2.
Proof.
  unfold addToQueue. destruct (getQueue queueId m) as [queue|]; [|apply extends_refl].
  case_decide; [apply extends_refl|]. cbn zeta. unfold snd.
  set (queueItems := imap _ items).
  set (m' := notifyQueueEvent _ _ _).
  unfold extends. split_and!.
  - unfold m', itemEvents, notifyQueueEvent, sortQueueByPriority. simpl.
    rewrite omap_app. simpl. by rewrite app_nil_r.
  - unfold m'. simpl. rewrite length_app. lia.
  - unfold m', sortQueueByPriority. simpl. by rewrite !length_alter.
  - intros q _. unfold m', sortQueueByPriority, getQueueObj, updQueue. simpl.
    by rewrite !(lookup_total_alter_field queue_options).
Qed.

Lemma wellFormed_processQueues queueId m :
  wellFormed m → wellFormed (processQueues queueId m).
Proof.
  intros Hm. unfold processQueues. destruct (onLine m); [|done].
  destruct (getQueue queueId m) as [queue|] eqn:Hget; [|done].
  case_decide; [|done]. apply wellFormed_processQueue; [done|].
  by eapply wellFormed_getQueue.
Qed.

Lemma extends_processQueues queueId m : extends m (processQueues queueId m).
Proof.
  unfold processQueues. destruct (onLine m); [|apply extends_refl].
  destruct (getQueue queueId m) as [queue|]; [|apply extends_refl].
  case_decide; [apply extends_processQueue|apply extends_refl].
Qed.

Lemma quiet_step m e :
  match e with Interval _ | Settle _ _ => True | _ => quiet m (step m e) end.
Proof.
  destruct e; cbn [step]; try done.
  - apply quiet_fireTimer.
  - apply quiet_handleNetworkChange. by apply quiet_frame.
  - apply quiet_handleNetworkChange. by apply quiet_frame.
  - apply quiet_onVisibilityChange. by apply quiet_frame.
  - apply quiet_onVisibilityChange. by apply quiet_frame.
Qed.

Lemma wellFormed_step m e : wellFormed m → wellFormed (step m e).
Proof.
  intros Hm. pose proof (quiet_step m e) as Hquiet.
  destruct e; try by eapply quiet_wellFormed.
  - by apply wellFormed_processQueues.
  - by apply wellFormed_settle.
Qed.

Lemma extends_step m e : extends m (step m e).
Proof.
  pose proof (quiet_step m e) as Hquiet.
  destruct e; try by apply quiet_extends.
  - apply extends_processQueues.
  - apply extends_settle.
Qed.

Lemma wellFormed_act m a : wellFormed m → wellFormed (act m a).
Proof.
  intros Hm. destruct a; simpl.
  - by apply wellFormed_createQueue.
  - by apply wellFormed_addToQueue.
  - by apply wellFormed_startQueue.
  - eapply quiet_wellFormed; [apply quiet_pauseQueue|done].
  - eapply quiet_wellFormed; [apply quiet_resumeQueue|done].
  - eapply quiet_wellFormed; [apply quiet_stopQueue|done].
  - by apply wellFormed_step.
Qed.

Lemma extends_act m a : extends m (act m a).
Proof.
  destruct a; simpl.
  - apply extends_createQueue.
  - apply extends_addToQueue.
  - apply extends_startQueue.
  - apply quiet_extends, quiet_pauseQueue.
  - apply quiet_extends, quiet_resumeQueue.
  - apply quiet_extends, quiet_stopQueue.
  - apply extends_step.
Qed.

Lemma wellFormed_newManager clock : wellFormed (newManager clock).
Proof.
  unfold wellFormed. split_and!; by constructor.
Qed.

Lemma wellFormed_acts actions : ∀ m, wellFormed m → wellFormed (foldl act m actions).
Proof.
  induction actions as [|a actions IH]; intros m Hm; [done|].
  simpl. by apply IH, wellFormed_act.
Qed.

Lemma extends_acts actions : ∀ m, extends m (foldl act m actions).
Proof.
  induction actions as [|a actions IH]; intros m; [apply extends_refl|].
  simpl. eapply extends_trans; [apply extends_act|apply IH].
Qed.

Lemma wellFormed_history clock actions : wellFormed (history clock actions).
Proof. apply wellFormed_acts, wellFormed_newManager. Qed.

Lemma startDownload_timers item queue m : timers (startDownload item queue m) = timers m.
Proof. unfold startDownload. simpl. by case_decide. Qed.

Lemma timers_set_tasks ts m : timers (set_tasks ts m) = timers m.
Proof. by destruct m. Qed.

(** The download of the suspended call [k] fails: the timers afterwards. *)
Lemma settle_failure_timers k task error m :
  tasks m !! k = Some task →
  timers (settle k (inr error) m)
  = timers (handleDownloadError (task_item task) (task_queue task) error m).
Proof.
  intros Hk. unfold settle. rewrite Hk.
  destruct (task_rest task); cbv zeta; rewrite timers_set_tasks; [done|].
  apply startDownload_timers.
Qed.

Lemma executions_mono item m m' : extends m m' → executions item m ≤ executions item m'.
Proof.
  intros ([new Hst] & _). unfold executions. rewrite Hst, filter_app, length_app. lia.
Qed.

Lemma executions_started item m : item ∈ itemEvents "started" m → 1 ≤ executions item m.
Proof.
  intros Hin. unfold executions.
  assert (item ∈ filter (λ r, r = item) (itemEvents "started" m)) as Hin'
    by by apply list_elem_of_filter.
  destruct (filter _ _); [by apply elem_of_nil in Hin'|simpl; lia].
Qed.

(** A suspended call of a manager waits for an item of the heap that has
    been attempted, in a queue of the heap. *)
Lemma history_task clock actions k task :
  tasks (history clock actions) !! k = Some task →
  validQueue (history clock actions) (task_queue task) ∧
  validItem (history clock actions) (task_item task) ∧
  1 ≤ item_attempts (getItem (history clock actions) (task_item task)).
Proof.
  intros Hk. pose proof (wellFormed_history clock actions) as Hm.
  pose proof Hm as (Hcount & Hstarted & _ & _ & Htasks).
  rewrite Forall_forall in Htasks.
  destruct (Htasks task (list_elem_of_lookup_2 _ _ _ Hk)) as (Hq & Hin & _).
  rewrite Forall_forall in Hstarted. pose proof (Hstarted _ Hin) as Hitem.
  split_and!; [done|done|]. rewrite Hcount by done. by apply executions_started.
Qed.

(** C4. A failing item below the retry cap gets a retry timer whose delay is
    [retryDelay * 2^(attempts-1)].  In every manager that is reached from a
    new one by calls of [createQueue], [addToQueue], [startQueue],
    [pauseQueue], [resumeQueue] and [stopQueue] and by events of the
    browser, [attempts]
    of an item is the number of its executions that have begun (its
    [started] notifications), and it does not decrease afterwards.  A
    download that fails in such a manager has begun, so [attempts] is at
    least 1, and its failure adds the timer above when [attempts] is below
    the cap and no timer otherwise.  When the same item of the same queue
    fails a second time later in the history, both times below the cap, the
    second delay is the first one times [2^(attempts' - attempts)]: for a
    non-negative [retryDelay] it is not smaller.  With a [retryDelay] of
    100 ms and a cap of 3 the two delays are 100 ms and 200 ms.  The timer
    does nothing before its delay has elapsed; once it has elapsed on a
    running queue, the callback puts the item back to [pending] and keeps
    its [attempts]. *)
Theorem C4_backoff_delay :
  (∀ m item queue error,
     item_attempts (getItem m item) < opt_retryAttempts (queue_options (getQueueObj m queue)) →
     timers (handleDownloadError item queue error m)
     = timers m ++ [{| timer_action := RetryTimer item queue;
                       timer_delay := opt_retryDelay (queue_options (getQueueObj m queue))
                                      * 2 ^ (item_attempts (getItem m item) - 1);
                       timer_setAt := now m |}]) ∧
  (∀ clock actions item,
     let m := history clock actions in
     validItem m item →
     item_attempts (getItem m item) = executions item m ∧
     ∀ actions', item_attempts (getItem m item)
                 ≤ item_attempts (getItem (foldl act m actions') item)) ∧
  (∀ clock actions k task error,
     let m := history clock actions in
     tasks m !! k = Some task →
     let item := task_item task in
     let queue := task_queue task in
     1 ≤ item_attempts (getItem m item) ∧
     timers (step m (Settle k (inr error)))
     = timers m ++
       (if decide (item_attempts (getItem m item)
                   < opt_retryAttempts (queue_options (getQueueObj m queue)))
        then [{| timer_action := RetryTimer item queue;
                 timer_delay := opt_retryDelay (queue_options (getQueueObj m queue))
                                * 2 ^ (item_attempts (getItem m item) - 1);
                 timer_setAt := now m |}]
        else [])) ∧
  (∀ clock actions k task error actions' k' task' error' t t',
     let m := history clock actions in
     let m' := foldl act (step m (Settle k (inr error))) actions' in
     tasks m !! k = Some task →
     tasks m' !! k' = Some task' →
     task_item task' = task_item task →
     task_queue task' = task_queue task →
     0 ≤ opt_retryDelay (queue_options (getQueueObj m (task_queue task))) →
     timers (step m (Settle k (inr error))) = timers m ++ [t] →
     timers (step m' (Settle k' (inr error'))) = timers m' ++ [t'] →
     item_attempts (getItem m (task_item task))
     ≤ item_attempts (getItem m' (task_item task)) ∧
     timer_delay t' = timer_delay t * 2 ^ (item_attempts (getItem m' (task_item task))
                                           - item_attempts (getItem m (task_item task))) ∧
     timer_delay t ≤ timer_delay t') ∧
  (let m := history 1000 demoBackoff in
   let m' := run m [Settle 0 failure; Elapse 100; Fire 0; Interval "q"] in
   timer_delay <$> timers (step m (Settle 0 failure)) = [100] ∧
   item_attempts <$> itemHeap m = [1] ∧
   timers m' = [] ∧
   timer_delay <$> timers (step m' (Settle 0 failure)) = [200] ∧
   item_attempts <$> itemHeap m' = [2]) ∧
  (∀ m k t,
     timers m !! k = Some t → now m < timer_setAt t + timer_delay t →
     fireTimer k m = m) ∧
  (∀ m k t item queue it,
     timers m !! k = Some t →
     timer_action t = RetryTimer item queue →
     timer_setAt t + timer_delay t ≤ now m →
     queue_status (getQueueObj m queue) = QRunning →
     itemHeap m !! item = Some it →
     item_status (getItem (fireTimer k m) item) = IPending ∧
     item_attempts (getItem (fireTimer k m) item) = item_attempts it).
Proof.
  split_and!.
  - intros m item queue error Hlt.
    rewrite handleDownloadError_timers. by rewrite decide_True by done.
  - intros clock actions item m Hitem.
    pose proof (wellFormed_history clock actions) as Hm.
    split; [by apply Hm|]. intros actions'.
    pose proof (wellFormed_acts actions' m Hm) as (Hcount' & _).
    pose proof (extends_acts actions' m) as Hext.
    destruct Hm as (Hcount & _). rewrite Hcount by done.
    rewrite Hcount'; [by apply executions_mono|].
    destruct Hext as (_ & Hlen & _). unfold validItem in *. fold m in Hlen. lia.
  - intros clock actions k task error m Hk item queue.
    destruct (history_task clock actions k task Hk) as (_ & _ & Hatt).
    split; [done|]. cbn [step].
    rewrite (settle_failure_timers k task) by done. apply handleDownloadError_timers.
  - intros clock actions k task error actions' k' task' error' t t' m m'
      Hk Hk' Hitem Hqueue Hdelay Ht Ht'.
    set (item := task_item task) in *. set (queue := task_queue task) in *.
    destruct (history_task clock actions k task Hk) as (Hq & Hi & Hatt).
    fold m item queue in Hq, Hi, Hatt.
    assert (m' = history clock (actions ++ Browser (Settle k (inr error)) :: actions'))
      as Hhist by (unfold m', m, history; by rewrite foldl_app).
    pose proof (wellFormed_history clock actions) as Hm. fold m in Hm.
    assert (wellFormed m') as Hm' by (rewrite Hhist; apply wellFormed_history).
    assert (extends m m') as Hext.
    { eapply extends_trans; [apply (extends_act m (Browser (Settle k (inr error))))|].
      apply extends_acts. }
    assert (item_attempts (getItem m item) ≤ item_attempts (getItem m' item)) as Hmono.
    { destruct Hm as (Hcount & _), Hm' as (Hcount' & _).
      rewrite Hcount by done. rewrite Hcount'; [by apply executions_mono|].
      destruct Hext as (_ & Hlen & _). unfold validItem in *. lia. }
    assert (queue_options (getQueueObj m' queue) = queue_options (getQueueObj m queue))
      as Hopts by by apply Hext.
    cbn [step] in Ht, Ht'.
    rewrite (settle_failure_timers k task) in Ht by done.
    rewrite (settle_failure_timers k' task') in Ht' by done.
    rewrite handleDownloadError_timers in Ht, Ht'.
    rewrite Hitem, Hqueue in Ht'. fold item queue in Ht, Ht'.
    apply app_inv_head in Ht, Ht'.
    case_decide; [|done]. case_decide; [|done].
    injection Ht as <-. injection Ht' as <-. simpl. rewrite Hopts.
    split_and!; [done| |by apply backoff_monotone].
    rewrite <-Z.mul_assoc, <-Z.pow_add_r by lia. do 2 f_equal. lia.
  - by vm_compute.
  - intros. by eapply fireTimer_not_due.
  - intros m k t item queue it Ht Hact Hdue Hrun Hit.
    by erewrite fireTimer_retry.
Qed.

Lemma C4_backoff_delay_witness :
  timers (handleDownloadError 0 0 "timeout" demoRetry)
  = timers demoRetry ++ [{| timer_action := RetryTimer 0 0;
                            timer_delay := opt_retryDelay (queue_options (getQueueObj demoRetry 0))
                                           * 2 ^ (item_attempts (getItem demoRetry 0) - 1);
                            timer_setAt := now demoRetry |}] ∧
  item_attempts (getItem (history 1000 demoBackoff) 0) = 1 ∧
  timer_delay {| timer_action := RetryTimer 0 0; timer_delay := 100; timer_setAt := 1000 |}
  ≤ timer_delay {| timer_action := RetryTimer 0 0; timer_delay := 200; timer_setAt := 1100 |} ∧
  item_status (getItem (fireTimer 0 demoFailedOnce) 0) = IPending.
Proof.
  destruct C4_backoff_delay as (Hdelay & Hcount & _ & Hmono & _ & _ & Hfire).
  split_and!.
  - apply (Hdelay demoRetry 0%nat 0%nat "timeout"); by vm_compute.
  - etrans; [apply (Hcount 1000 demoBackoff 0%nat)|]; [vm_compute; lia|by vm_compute].
  - apply (Hmono 1000 demoBackoff 0%nat
             {| task_queue := 0; task_item := 0; task_rest := [] |} "timeout"
             [Browser (Elapse 100); Browser (Fire 0); Browser (Interval "q")] 0%nat
             {| task_queue := 0; task_item := 0; task_rest := [] |} "timeout").
    all: by vm_compute.
  - apply (Hfire demoFailedOnce 0%nat
             {| timer_action := RetryTimer 0 0; timer_delay := 100; timer_setAt := 1000 |}
             0%nat 0%nat (getItem demoFailedOnce 0)); by vm_compute.
Defined.

End QueueManager.

(** ** Strings *)

(** The string methods and the regular expressions that the scanner and the
    resolver use, on strings of bytes. *)
Module Str.

(** [s.startsWith(p)]. *)
Definition startsWith (p s : string) : bool := String.prefix p s.

(** [s.split(c)[0]]: what stands before the first [c]. *)
Fixpoint beforeFirst (c : ascii) (s : string) : string :=
  match s with
  | EmptyString => EmptyString
  | String a s' => if decide (a = c) then EmptyString else String a (beforeFirst c s')
  end.

(** [s.split(c).pop()]: what stands after the last [c]. *)
Fixpoint afterLast_go (c : ascii) (s acc : string) : string :=
  match s with
  | EmptyString => String.rev acc
  | String a s' => if decide (a = c) then afterLast_go c s' EmptyString
                   else afterLast_go c s' (String a acc)
  end.
Definition afterLast (c : ascii) (s : string) : string := afterLast_go c s EmptyString.

(** [s.toLowerCase()] on the ASCII letters. *)
Definition lowerChar (a : ascii) : ascii :=
  let n := nat_of_ascii a in
  if decide (65 ≤ n ∧ n ≤ 90)%nat then ascii_of_nat (n + 32) else a.

Fixpoint toLowerCase (s : string) : string :=
  match s with
  | EmptyString => EmptyString
  | String a s' => String (lowerChar a) (toLowerCase s')
  end.

(** [s] without the prefix [p], when it has it. *)
Fixpoint stripPrefix (p s : string) : option string :=
  match p, s with
  | EmptyString, _ => Some s
  | String a p', String b s' => if decide (a = b) then stripPrefix p' s' else None
  | String _ _, EmptyString => None
  end.

(** Some suffix of [s] satisfies [P]: an unanchored match. *)
Fixpoint anySuffix (P : string → bool) (s : string) : bool :=
  P s || match s with
         | EmptyString => false
         | String _ s' => anySuffix P s'
         end.

(** The first suffix of [s] on which [f] answers: the leftmost match. *)
Fixpoint firstSuffix {A} (f : string → option A) (s : string) : option A :=
  match f s with
  | Some x => Some x
  | None => match s with
            | EmptyString => None
            | String _ s' => firstSuffix f s'
            end
  end.

(** [.] of a regular expression does not match a line terminator. *)
Fixpoint noLineTerminator (s : string) : bool :=
  match s with
  | EmptyString => true
  | String a s' => bool_decide (a ≠ "010"%char ∧ a ≠ "013"%char) && noLineTerminator s'
  end.

(** [(alt1|alt2|...)] at the start of [s]: the rests after each alternative
    that matches. *)
Definition afterAny (alts : list string) (s : string) : list string :=
  omap (λ alt, stripPrefix alt s) alts.

(** The maximal prefix of characters that satisfy [P]: a greedy class. *)
Fixpoint takeWhile (P : ascii → bool) (s : string) : string :=
  match s with
  | EmptyString => EmptyString
  | String a s' => if P a then String a (takeWhile P s') else EmptyString
  end.

Fixpoint lacks (c : ascii) (s : string) : Prop :=
  match s with
  | EmptyString => True
  | String a s' => a ≠ c ∧ lacks c s'
  end.

Lemma lacks_app c s t : lacks c (s +:+ t) ↔ lacks c s ∧ lacks c t.
Proof. induction s as [|a s IH]; simpl; [tauto|]. rewrite IH. tauto. Qed.

Lemma pretty_N_go_lacks c x : ∀ s,
  (∀ d, pretty_N_char d ≠ c) → lacks c s → lacks c (pretty_N_go x s).
Proof.
  induction (N.lt_wf_0 x) as [x _ IH]; intros s Hc Hs.
  destruct (decide (x = 0)%N) as [->|].
  - by rewrite pretty_N_go_0.
  - rewrite pretty_N_go_step by lia. apply IH; [|done|by split].
    apply N.div_lt; lia.
Qed.

(** The decimal form of an integer has no ["x"] and no ["_"]. *)
Lemma pretty_Z_lacks (c : ascii) (z : Z) :
  (∀ d, pretty_N_char d ≠ c) → c ≠ "-"%char → lacks c (pretty z).
Proof.
  intros Hc Hdash.
  assert (∀ n : N, lacks c (pretty n)) as HN.
  { intros n. unfold pretty, pretty_N. case_decide.
    - simpl. split; [|done]. intros <-. by apply (Hc 0%N).
    - by apply pretty_N_go_lacks. }
  destruct z as [|p|p]; unfold pretty, pretty_Z.
  - simpl. split; [|done]. intros <-. by apply (Hc 0%N).
  - apply HN.
  - simpl. split; [done|]. apply HN.
Qed.

Lemma pretty_N_char_not_x d : pretty_N_char d ≠ "x"%char.
Proof. unfold pretty_N_char. by repeat case_match. Qed.

Lemma pretty_N_char_not_underscore d : pretty_N_char d ≠ "_"%char.
Proof. unfold pretty_N_char. by repeat case_match. Qed.

Lemma append_assoc s t u : s +:+ (t +:+ u) = (s +:+ t) +:+ u.
Proof.
  induction s as [|a s IH]; [done|].
  change (String a (s +:+ (t +:+ u)) = String a ((s +:+ t) +:+ u)). by f_equal.
Qed.

(** Two strings whose tails lack a separator split at it in one way. *)
Lemma split_unique_r c s1 s2 t1 t2 :
  lacks c t1 → lacks c t2 →
  s1 +:+ String c t1 = s2 +:+ String c t2 → s1 = s2 ∧ t1 = t2.
Proof.
  intros H1 H2. revert s2. induction s1 as [|a s1 IH]; intros [|b s2]; simpl.
  - by intros [= ->].
  - intros [= <- ->]. apply lacks_app in H1 as [_ [? _]]. done.
  - intros [= -> <-]. apply lacks_app in H2 as [_ [? _]]. done.
  - intros [= -> Heq]. by destruct (IH s2 Heq) as [-> ->].
Qed.

End Str.

(** ** The content scanner ([src/content/scanner.js]) *)
Module Scanner.
Import Str.

(** [settings.fileTypes], [settings.minWidth], [settings.minHeight]; a flag
    that is missing reads as [false]. *)
Record FileTypes := {
  jpg : bool; png : bool; webp : bool; gif : bool; svg : bool; blob : bool
}.

Record Settings := {
  fileTypes : option FileTypes;
  minWidth : Z;
  minHeight : Z
}.

(** A discovered image.  The [element], [src], [selector] and [timestamp]
    fields are carried along and never read by the filters. *)
Record ImageData := {
  url : string;
  alt : string;
  width : Z;
  height : Z;
  type : string;
  estimatedSize : Q
}.

(** An image as [processImageData] returns it; [filename] and
    [sizeFormatted], two display strings, are left out. *)
Record ProcessedImage := {
  image : ImageData;
  id : string;
  downloadUrl : string
}.

Section Browser.
(** [new URL(url, window.location.origin).href] and [new URL(url).pathname],
    [None] when the constructor throws. *)
Variable originHref : string → option string.
Variable pathname : string → option string.

(** *** Utility methods *)

Definition generateImageKey (imageData : ImageData) : string :=
  beforeFirst "?" (url imageData)
    +:+ "_" +:+ pretty (width imageData) +:+ "x" +:+ pretty (height imageData).

(** The regular expression [imageExtensions], ignoring case: a dot, one of
    nine extensions, then the end of the string or a question mark and
    anything but a line terminator up to the end. *)
Definition imageExtensions (s : string) : bool :=
  anySuffix (λ t,
    existsb (λ rest, match rest with
                     | EmptyString => true
                     | String c r => bool_decide (c = "?"%char) && noLineTerminator r
                     end)
      (afterAny [".jpg"; ".jpeg"; ".png"; ".webp"; ".gif"; ".svg"; ".bmp"; ".tiff"; ".ico"]
                t))
    (toLowerCase s).

(** The three [imagePatterns], ignoring case: [?] or [&] before one of four
    words; a slash before one of six words; one of five extensions at the
    end of the string. *)
Definition imagePatterns : list (string → bool) := [
  (λ s, anySuffix (λ t, match t with
                        | EmptyString => false
                        | String c t' =>
                            bool_decide (c = "?"%char ∨ c = "&"%char) &&
                            bool_decide (afterAny ["image"; "img"; "pic"; "photo"] t' ≠ [])
                        end) (toLowerCase s));
  (λ s, anySuffix (λ t, bool_decide
                          (afterAny ["/image"; "/img"; "/pic"; "/photo"; "/thumbnail";
                                     "/thumb"] t ≠ [])) (toLowerCase s));
  (λ s, anySuffix (λ t, bool_decide (t ∈ [".jpg"; ".jpeg"; ".png"; ".webp"; ".gif"]))
          (toLowerCase s))
].

Definition isValidImageUrl (url : string) : bool :=
  if decide (url = "") then false
  else
    match (if startsWith "/" url then originHref url else Some url) with
    | None => false
    | Some url =>
        match pathname url with
        | None => false
        | Some path =>
            if imageExtensions path then true
            else if startsWith "blob:" url || startsWith "data:image/" url then true
            else existsb (λ pattern, pattern url) imagePatterns
        end
    end.

(** The group captured by [url.match] in [determineImageType]: the
    characters other than [;] that follow the leftmost [data:image/]
    which has one. *)
Definition matchDataImage (url : string) : option string :=
  firstSuffix (λ t, match stripPrefix "data:image/" t with
                    | Some rest =>
                        match takeWhile (λ c, bool_decide (c ≠ ";"%char)) rest with
                        | EmptyString => None
                        | group => Some group
                        end
                    | None => None
                    end) url.

Definition determineImageType (url : string) : string :=
  if startsWith "data:image/" url then default "unknown" (matchDataImage url)
  else if startsWith "blob:" url then "blob"
  else
    let extension := toLowerCase (beforeFirst "?" (afterLast "." url)) in
    if decide (extension = "") then "unknown" else extension.

(** [prepareDownloadUrl], [None] when [new URL] throws. *)
Definition prepareDownloadUrl (url : string) : option string :=
  if startsWith "/" url then originHref url else Some url.

(** *** Filtering and processing *)

Definition flag (f : FileTypes → bool) (settings : Settings) : bool :=
  from_option f false (fileTypes settings).

Definition passesFileTypeFilter (settings : Settings) (imageData : ImageData) : bool :=
  let type := if decide (type imageData = "") then determineImageType (url imageData)
              else type imageData in
  if bool_decide (type ∈ ["jpg"; "jpeg"]) then flag jpg settings
  else if decide (type = "png") then flag png settings
  else if decide (type = "webp") then flag webp settings
  else if decide (type = "gif") then flag gif settings
  else if decide (type = "svg") then flag svg settings
  else if bool_decide (type ∈ ["canvas"; "blob"; "video-frame"]) then flag blob settings
  else true.

(** [passesFilters], with [this.scannedImages] before and after. *)
Definition passesFilters (settings : Settings) (scannedImages : gmap string ImageData)
    (imageData : ImageData) : bool * gmap string ImageData :=
  if negb (passesFileTypeFilter settings imageData) then (false, scannedImages)
  else if bool_decide (width imageData < minWidth settings ∨
                       height imageData < minHeight settings)
  then (false, scannedImages)
  else if negb (isValidImageUrl (url imageData)) then (false, scannedImages)
  else
    let imageKey := generateImageKey imageData in
    if decide (is_Some (scannedImages !! imageKey)) then (false, scannedImages)
    else (true, <[imageKey := imageData]> scannedImages).

(** [images.filter(img => this.passesFilters(img))]. *)
Fixpoint filterImages (settings : Settings) (scannedImages : gmap string ImageData)
    (images : list ImageData) : list ImageData * gmap string ImageData :=
  match images with
  | [] => ([], scannedImages)
  | img :: images =>
      let '(ok, scannedImages) := passesFilters settings scannedImages img in
      let '(kept, scannedImages) := filterImages settings scannedImages images in
      (if ok then img :: kept else kept, scannedImages)
  end.

Definition processImageData (imageData : ImageData) : option ProcessedImage :=
  downloadUrl ← prepareDownloadUrl (url imageData);
  Some {| image := imageData; id := generateImageKey imageData;
          downloadUrl := downloadUrl |}.

(** The comparator [(a, b) => b.estimatedSize - a.estimatedSize], by sign. *)
Definition bySizeDescending (a b : ProcessedImage) : Z :=
  match (estimatedSize (image b) ?= estimatedSize (image a))%Q with
  | Lt => -1
  | Eq => 0
  | Gt => 1
  end.

(** [filterAndProcessImages]: the result, [None] when [processImageData]
    throws, and [this.scannedImages] afterwards. *)
Definition filterAndProcessImages (settings : Settings)
    (scannedImages : gmap string ImageData) (images : list ImageData) :
    option (list ProcessedImage) * gmap string ImageData :=
  let '(kept, scannedImages) := filterImages settings scannedImages images in
  (js_sort bySizeDescending <$> mapM processImageData kept, scannedImages).

Fixpoint removeDuplicateImages_from (seen : gset string) (images : list ImageData) :
    list ImageData :=
  match images with
  | [] => []
  | img :: images =>
      let key := generateImageKey img in
      if decide (key ∈ seen) then removeDuplicateImages_from seen images
      else img :: removeDuplicateImages_from ({[key]} ∪ seen) images
  end.

Definition removeDuplicateImages (images : list ImageData) : list ImageData :=
  removeDuplicateImages_from ∅ images.

(** *** Canvas, blob and video extraction *)

(** What the extraction reads of the page: the [canvas] elements with the
    answer of [toDataURL] ([None] when it throws, as on a tainted canvas);
    the elements whose computed [background-image] holds a [url(...)], with
    that URL and what [getImageDimensions] resolves to for it; the [video]
    elements with the PNG data URL of their current frame ([None] when
    drawing or exporting it throws). *)
Record Canvas := { canvasWidth : Z; canvasHeight : Z; toDataURL : option string }.
Record Background := { backgroundUrl : string; probedWidth : Z; probedHeight : Z }.
Record Video := { videoWidth : Z; videoHeight : Z; frameDataURL : option string }.
Record Document := {
  canvases : list Canvas;
  backgrounds : list Background;
  videos : list Video
}.

(** [estimateCanvasSize]: four bytes per pixel. *)
Definition estimateCanvasSize (w h : Z) : Q := inject_Z (w * h * 4).

(** The body of the loop over the canvases, for [canvases[i]]. *)
Definition canvasImage (settings : Settings) (i : nat) (canvas : Canvas) :
    option ImageData :=
  if bool_decide (minWidth settings < canvasWidth canvas ∧
                  minHeight settings < canvasHeight canvas)
  then
    dataUrl ← toDataURL canvas;
    Some {| url := dataUrl; alt := "Canvas Image " +:+ pretty (i + 1)%nat;
            width := canvasWidth canvas; height := canvasHeight canvas;
            type := "canvas";
            estimatedSize := estimateCanvasSize (canvasWidth canvas) (canvasHeight canvas) |}
  else None.

(** The body of the loop of [extractBlobFromBackgrounds]. *)
Definition blobImage (settings : Settings) (element : Background) : option ImageData :=
  if startsWith "blob:" (backgroundUrl element) && isValidImageUrl (backgroundUrl element)
  then
    if bool_decide (minWidth settings ≤ probedWidth element ∧
                    minHeight settings ≤ probedHeight element)
    then Some {| url := backgroundUrl element; alt := "Background Blob Image";
                 width := probedWidth element; height := probedHeight element;
                 type := "blob";
                 estimatedSize := inject_Z (probedWidth element * probedHeight element * 3) |}
    else None
  else None.

(** The body of the loop of [extractVideoFrames], for [videos[i]]. *)
Definition videoFrame (settings : Settings) (i : nat) (video : Video) : option ImageData :=
  if bool_decide (minWidth settings < videoWidth video ∧
                  minHeight settings < videoHeight video)
  then
    dataUrl ← frameDataURL video;
    Some {| url := dataUrl; alt := "Video Frame " +:+ pretty (i + 1)%nat;
            width := videoWidth video; height := videoHeight video;
            type := "video-frame";
            estimatedSize := estimateCanvasSize (videoWidth video) (videoHeight video) |}
  else None.

Definition extractBlobFromBackgrounds (settings : Settings) (document : Document) :
    list ImageData :=
  omap (blobImage settings) (backgrounds document).

Definition extractVideoFrames (settings : Settings) (document : Document) :
    list ImageData :=
  omap (λ x, x) (imap (videoFrame settings) (videos document)).

Definition extractCanvasImages (settings : Settings) (document : Document) :
    list ImageData :=
  if negb (flag blob settings) then []
  else
    omap (λ x, x) (imap (canvasImage settings) (canvases document))
      ++ extractBlobFromBackgrounds settings document
      ++ extractVideoFrames settings document.

(** Phases 4 and 5 of [scanCurrentPage]: the canvas images are appended to
    the images found in the page, and the whole is filtered and processed. *)
Definition scanResult (settings : Settings) (scannedImages : gmap string ImageData)
    (foundImages : list ImageData) (document : Document) :
    option (list ProcessedImage) * gmap string ImageData :=
  filterAndProcessImages settings scannedImages
    (foundImages ++ extractCanvasImages settings document).

(** *** Identity of a candidate, stateless checks *)

(** The normalized URL (the URL up to its first [?]) and the reported
    dimensions. *)
Definition identity (imageData : ImageData) : string * Z * Z :=
  (beforeFirst "?" (url imageData), width imageData, height imageData).

(** The three checks of [passesFilters] that do not read
    [this.scannedImages]. *)
Definition passesStateless (settings : Settings) (imageData : ImageData) : bool :=
  passesFileTypeFilter settings imageData
  && negb (bool_decide (width imageData < minWidth settings ∨
                        height imageData < minHeight settings))
  && isValidImageUrl (url imageData).

(** The checks of [passesFilters] other than the size test pass. *)
Definition otherChecksPass (settings : Settings) (scannedImages : gmap string ImageData)
    (imageData : ImageData) : Prop :=
  passesFileTypeFilter settings imageData = true ∧
  isValidImageUrl (url imageData) = true ∧
  scannedImages !! generateImageKey imageData = None.

(** *** Facts about the filters *)

Lemma passesFilters_eq settings scannedImages imageData :
  passesFilters settings scannedImages imageData
  = if passesStateless settings imageData then
      if decide (is_Some (scannedImages !! generateImageKey imageData))
      then (false, scannedImages)
      else (true, <[generateImageKey imageData := imageData]> scannedImages)
    else (false, scannedImages).
Proof.
  unfold passesFilters, passesStateless.
  destruct (passesFileTypeFilter _ _); simpl; [|done].
  destruct (bool_decide _); simpl; [done|].
  by destruct (isValidImageUrl _).
Qed.

Lemma filterImages_spec settings images : ∀ scannedImages,
  let keys := fmap generateImageKey in
  let '(kept, scannedImages') := filterImages settings scannedImages images in
  NoDup (keys kept) ∧
  (∀ k, k ∈ keys kept → scannedImages !! k = None) ∧
  (∀ k, is_Some (scannedImages' !! k) ↔ is_Some (scannedImages !! k) ∨ k ∈ keys kept) ∧
  (∀ img, img ∈ kept → img ∈ images ∧ passesStateless settings img = true) ∧
  (∀ img, img ∈ images → passesStateless settings img = true →
          is_Some (scannedImages' !! generateImageKey img)).
Proof.
  induction images as [|img images IH]; intros seen keys; simpl.
  { split_and!; [constructor|set_solver..]. }
  rewrite passesFilters_eq.
  destruct (passesStateless settings img) eqn:Hpass;
    [destruct (decide (is_Some (seen !! generateImageKey img))) as [Hseen|Hfresh]|].
  - specialize (IH seen). destruct (filterImages settings seen images) as [kept seen'].
    destruct IH as (Hnodup & Hnew & Hdom & Hkept & Hall).
    split_and!; [done|done|done|set_solver|].
    intros img' [->|?]%elem_of_cons ?; [|by apply Hall].
    apply Hdom. by left.
  - specialize (IH (<[generateImageKey img := img]> seen)).
    destruct (filterImages settings _ images) as [kept seen'].
    destruct IH as (Hnodup & Hnew & Hdom & Hkept & Hall).
    assert (seen !! generateImageKey img = None) as Hnone
      by by apply eq_None_not_Some.
    split_and!.
    + unfold keys. rewrite fmap_cons. apply NoDup_cons. split; [|done].
      intros Hin%Hnew. by rewrite lookup_insert_eq in Hin.
    + unfold keys. rewrite fmap_cons. intros k [->|Hin%Hnew]%elem_of_cons; [done|].
      destruct (decide (generateImageKey img = k)) as [<-|Hne]; [done|].
      by rewrite lookup_insert_ne in Hin.
    + intros k. rewrite Hdom, lookup_insert_is_Some. unfold keys.
      rewrite fmap_cons, elem_of_cons. naive_solver.
    + intros img' [->|Hin%Hkept]%elem_of_cons; [|set_solver].
      split; [apply list_elem_of_here|done].
    + intros img' [->|?]%elem_of_cons ?; [|by apply Hall].
      apply Hdom. left. by rewrite lookup_insert_eq.
  - specialize (IH seen). destruct (filterImages settings seen images) as [kept seen'].
    destruct IH as (Hnodup & Hnew & Hdom & Hkept & Hall).
    split_and!; [done|done|done|set_solver|].
    intros img' [->|?]%elem_of_cons ?; [congruence|by apply Hall].
Qed.

(** *** The key is the identity *)

(** The key is the identity: two candidates have the same key exactly when
    they have the same normalized URL and the same dimensions. *)
Lemma generateImageKey_shape img :
  generateImageKey img
  = (beforeFirst "?" (url img) +:+ String "_" (pretty (width img)))
      +:+ String "x" (pretty (height img)).
Proof. unfold generateImageKey. by rewrite <-append_assoc. Qed.

Lemma generateImageKey_identity a b :
  generateImageKey a = generateImageKey b ↔ identity a = identity b.
Proof.
  split; [|unfold generateImageKey, identity; by intros [= -> -> ->]].
  rewrite !generateImageKey_shape. unfold identity.
  intros [Hl Hh]%split_unique_r;
    [|by apply pretty_Z_lacks; [apply pretty_N_char_not_x|]..].
  apply split_unique_r in Hl as [Hu Hw];
    [|by apply pretty_Z_lacks; [apply pretty_N_char_not_underscore|]..].
  apply (inj pretty) in Hw, Hh. congruence.
Qed.

Lemma NoDup_keys_identity {A} (f : A → ImageData) (l : list A) i j a b :
  NoDup (generateImageKey ∘ f <$> l) →
  l !! i = Some a → l !! j = Some b → identity (f a) = identity (f b) → i = j.
Proof.
  intros Hnodup Ha Hb Hid%generateImageKey_identity.
  apply (NoDup_lookup _ i j (generateImageKey (f a)) Hnodup);
    rewrite list_lookup_fmap; [by rewrite Ha|rewrite Hb; simpl; by rewrite Hid].
Qed.

Lemma elem_of_keys_identity (l : list ImageData) a :
  generateImageKey a ∈ generateImageKey <$> l → ∃ a', a' ∈ l ∧ identity a' = identity a.
Proof.
  intros (a' & Hkey & Hin)%list_elem_of_fmap. exists a'. split; [done|].
  by apply generateImageKey_identity.
Qed.

Lemma isValidImageUrl_prepare u :
  isValidImageUrl u = true → is_Some (prepareDownloadUrl u).
Proof.
  unfold isValidImageUrl, prepareDownloadUrl. case_decide; [done|].
  destruct (startsWith "/" u); [|by eauto].
  destruct (originHref u); [by eauto|done].
Qed.

Lemma mapM_processImageData kept :
  Forall (λ img, isValidImageUrl (url img) = true) kept →
  ∃ processed, mapM processImageData kept = Some processed ∧ image <$> processed = kept.
Proof.
  induction 1 as [|img kept Hvalid _ (processed & Hmap & Himg)]; [by exists []|].
  assert (∃ p, processImageData img = Some p ∧ image p = img) as (p & Hp & Hpimg).
  { apply isValidImageUrl_prepare in Hvalid as [downloadUrl Hurl].
    unfold processImageData. rewrite Hurl. by eexists. }
  exists (p :: processed). split; [|by rewrite fmap_cons, Hpimg, Himg].
  apply mapM_Some_2. constructor; [done|]. by apply mapM_Some_1.
Qed.

Lemma passesStateless_valid settings img :
  passesStateless settings img = true →
  passesFileTypeFilter settings img = true ∧
  minWidth settings ≤ width img ∧ minHeight settings ≤ height img ∧
  isValidImageUrl (url img) = true.
Proof.
  unfold passesStateless. intros [[? Hsize%negb_true_iff]%andb_prop ?]%andb_prop.
  apply bool_decide_eq_false in Hsize. split_and!; [done|lia|lia|done].
Qed.

(** The result of [filterAndProcessImages]: a rearrangement of the
    processed images that the filter kept. *)
Lemma filterAndProcessImages_result settings scannedImages images :
  ∃ result processed,
    (filterAndProcessImages settings scannedImages images).1 = Some result ∧
    result ≡ₚ processed ∧
    image <$> processed = (filterImages settings scannedImages images).1.
Proof.
  unfold filterAndProcessImages.
  pose proof (filterImages_spec settings images scannedImages) as Hspec.
  destruct (filterImages settings scannedImages images) as [kept seen'].
  destruct Hspec as (_ & _ & _ & Hkept & _).
  destruct (mapM_processImageData kept) as (processed & -> & Himg).
  { apply Forall_forall. intros img [_ Hpass]%Hkept.
    by apply passesStateless_valid in Hpass as (_ & _ & _ & ?). }
  exists (js_sort bySizeDescending processed), processed. simpl.
  split_and!; [done|apply js_sort_perm|done].
Qed.

Lemma removeDuplicateImages_from_spec images : ∀ seen,
  let kept := removeDuplicateImages_from seen images in
  NoDup (generateImageKey <$> kept) ∧
  (∀ k, k ∈ generateImageKey <$> kept → k ∉ seen) ∧
  (∀ img, img ∈ images →
          generateImageKey img ∈ seen ∨ generateImageKey img ∈ generateImageKey <$> kept).
Proof.
  induction images as [|img images IH]; intros seen; simpl.
  { split_and!; [constructor|set_solver..]. }
  case_decide as Hseen.
  - destruct (IH seen) as (Hnodup & Hnew & Hall). split_and!; [done|done|].
    intros img' [->|?]%elem_of_cons; [by left|by apply Hall].
  - destruct (IH ({[generateImageKey img]} ∪ seen)) as (Hnodup & Hnew & Hall).
    rewrite fmap_cons. split_and!.
    + apply NoDup_cons. split; [|done]. intros Hin%Hnew. set_solver.
    + intros k [->|Hin%Hnew]%elem_of_cons; [done|set_solver].
    + intros img' [->|Hin%Hall]%elem_of_cons; [right; apply list_elem_of_here|].
      destruct Hin as [[Hin%elem_of_singleton|?]%elem_of_union|?];
        [right; rewrite Hin; apply list_elem_of_here|by left|].
      right. by apply list_elem_of_further.
Qed.

Lemma filterAndProcessImages_spec settings scannedImages images :
  ∃ result,
    (filterAndProcessImages settings scannedImages images).1 = Some result ∧
    NoDup (generateImageKey ∘ image <$> result) ∧
    (∀ p, p ∈ result →
          image p ∈ images ∧ passesStateless settings (image p) = true ∧
          scannedImages !! generateImageKey (image p) = None) ∧
    (∀ a, a ∈ images → passesStateless settings a = true →
          scannedImages !! generateImageKey a = None →
          ∃ p, p ∈ result ∧ identity (image p) = identity a).
Proof.
  destruct (filterAndProcessImages_result settings scannedImages images)
    as (result & processed & Hres & Hperm & Himg).
  pose proof (filterImages_spec settings images scannedImages) as Hspec.
  destruct (filterImages settings scannedImages images) as [kept seen'].
  simpl in Himg, Hspec. destruct Hspec as (Hnodup & Hnew & Hdom & Hkept & Hall).
  exists result. split_and!; [done|..].
  - by rewrite Hperm, list_fmap_compose, Himg.
  - intros p Hp. rewrite Hperm in Hp.
    assert (image p ∈ kept) as Hin by (rewrite <-Himg; by apply list_elem_of_fmap_2).
    destruct (Hkept _ Hin) as [? ?]. split_and!; [done|done|].
    apply Hnew. by apply list_elem_of_fmap_2.
  - intros a Ha Hpass Hfresh.
    apply (Hall a Ha), Hdom in Hpass as [Hseen|Hin].
    { rewrite Hfresh in Hseen. by destruct Hseen. }
    apply elem_of_keys_identity in Hin as (a' & Hin & Hid).
    rewrite <-Himg in Hin. apply list_elem_of_fmap in Hin as (p & -> & Hp).
    exists p. split; [by rewrite Hperm|done].
Qed.

(** C6. The result of a scan holds at most one candidate of each identity
    (normalized URL, width, height); two candidates with the same URL and
    different dimensions that pass the other filters and were not scanned
    before are both represented in the result, at two places; and
    [removeDuplicateImages] keeps one candidate of each identity. *)
Theorem C6_dedup_by_identity settings scannedImages foundImages document :
  let images := foundImages ++ extractCanvasImages settings document in
  ∃ result,
    (scanResult settings scannedImages foundImages document).1 = Some result ∧
    (∀ i j a b,
       result !! i = Some a → result !! j = Some b →
       identity (image a) = identity (image b) → i = j) ∧
    (∀ a b,
       a ∈ images → b ∈ images →
       passesStateless settings a = true → passesStateless settings b = true →
       scannedImages !! generateImageKey a = None →
       scannedImages !! generateImageKey b = None →
       beforeFirst "?" (url a) = beforeFirst "?" (url b) →
       width a ≠ width b ∨ height a ≠ height b →
       ∃ i j a' b', i ≠ j ∧ result !! i = Some a' ∧ result !! j = Some b' ∧
                    identity (image a') = identity a ∧
                    identity (image b') = identity b) ∧
    (∀ candidates i j a b,
       removeDuplicateImages candidates !! i = Some a →
       removeDuplicateImages candidates !! j = Some b →
       identity a = identity b → i = j) ∧
    (∀ candidates a,
       a ∈ candidates →
       ∃ a', a' ∈ removeDuplicateImages candidates ∧ identity a' = identity a).
Proof.
  intros images. unfold scanResult. fold images.
  destruct (filterAndProcessImages_spec settings scannedImages images)
    as (result & Hres & Hnodup & _ & Hrep).
  exists result. split_and!; [done|..].
  - intros i j a b. by apply NoDup_keys_identity.
  - intros a b Ha Hb Hpa Hpb Hfa Hfb Hurl Hdims.
    destruct (Hrep a Ha Hpa Hfa) as (a' & [i Hi]%list_elem_of_lookup & Hida).
    destruct (Hrep b Hb Hpb Hfb) as (b' & [j Hj]%list_elem_of_lookup & Hidb).
    exists i, j, a', b'. split_and!; try done.
    intros ->. rewrite Hi in Hj. injection Hj as ->.
    rewrite Hida in Hidb. unfold identity in Hidb. naive_solver.
  - intros candidates i j a b.
    destruct (removeDuplicateImages_from_spec candidates ∅) as (Hnodup' & _ & _).
    apply (NoDup_keys_identity (λ x, x)).
    by rewrite list_fmap_compose, list_fmap_id.
  - intros candidates a Ha.
    destruct (removeDuplicateImages_from_spec candidates ∅) as (_ & _ & Hall').
    apply Hall' in Ha as [Hin|Hin]; [set_solver|].
    by apply elem_of_keys_identity.
Qed.

Lemma passesFilters_too_small settings scannedImages imageData :
  width imageData < minWidth settings ∨ height imageData < minHeight settings →
  passesFilters settings scannedImages imageData = (false, scannedImages) ∧
  ∀ foundImages document result,
    (scanResult settings scannedImages foundImages document).1 = Some result →
    ∀ p, p ∈ result → image p ≠ imageData.
Proof.
  intros Hsmall.
  assert (passesStateless settings imageData = false) as Hfail.
  { unfold passesStateless. rewrite bool_decide_eq_true_2 by done.
    by rewrite andb_false_r. }
  split; [by rewrite passesFilters_eq, Hfail|].
  intros foundImages document result Hres p Hp Heq. subst imageData.
  unfold scanResult in Hres.
  destruct (filterAndProcessImages_spec settings scannedImages
              (foundImages ++ extractCanvasImages settings document))
    as (result' & Hres' & _ & Hkept & _).
  rewrite Hres in Hres'. injection Hres' as <-.
  destruct (Hkept p Hp) as (_ & Hpass & _). congruence.
Qed.

Lemma passesFilters_large_enough settings scannedImages imageData :
  minWidth settings ≤ width imageData → minHeight settings ≤ height imageData →
  otherChecksPass settings scannedImages imageData →
  passesFilters settings scannedImages imageData
  = (true, <[generateImageKey imageData := imageData]> scannedImages) ∧
  ∀ foundImages document,
    imageData ∈ foundImages ++ extractCanvasImages settings document →
    ∃ result p,
      (scanResult settings scannedImages foundImages document).1 = Some result ∧
      p ∈ result ∧ identity (image p) = identity imageData.
Proof.
  intros Hw Hh (Htype & Hvalid & Hfresh).
  assert (passesStateless settings imageData = true) as Hpass.
  { unfold passesStateless. rewrite Htype, Hvalid, bool_decide_eq_false_2 by lia.
    done. }
  split.
  - rewrite passesFilters_eq, Hpass, decide_False; [done|].
    rewrite Hfresh. by intros [? ?].
  - intros foundImages document Hin. unfold scanResult.
    destruct (filterAndProcessImages_spec settings scannedImages
                (foundImages ++ extractCanvasImages settings document))
      as (result & Hres & _ & _ & Hrep).
    destruct (Hrep imageData Hin Hpass Hfresh) as (p & ? & ?).
    by exists result, p.
Qed.

(** C7. The size test of [passesFilters] is inclusive on both axes, for any
    minimums: a candidate narrower than [minWidth] or lower than
    [minHeight] does not pass and is in no scan result; a candidate at
    least [minWidth] wide and at least [minHeight] high, whose type is
    allowed, whose URL is valid and which was not scanned before, passes,
    is remembered and is represented in the result of a scan that finds
    it; so that, the other checks passing, a candidate passes exactly when
    [minWidth <= width] and [minHeight <= height].  With both minimums at
    200, a candidate of size 150x300 and one of size 300x150 are excluded,
    and one of size 200x200 is included. *)
Theorem C7_minimum_is_inclusive settings scannedImages imageData :
  (width imageData < minWidth settings ∨ height imageData < minHeight settings →
     passesFilters settings scannedImages imageData = (false, scannedImages) ∧
     ∀ foundImages document result,
       (scanResult settings scannedImages foundImages document).1 = Some result →
       ∀ p, p ∈ result → image p ≠ imageData) ∧
  (minWidth settings ≤ width imageData → minHeight settings ≤ height imageData →
     otherChecksPass settings scannedImages imageData →
     passesFilters settings scannedImages imageData
     = (true, <[generateImageKey imageData := imageData]> scannedImages) ∧
     ∀ foundImages document,
       imageData ∈ foundImages ++ extractCanvasImages settings document →
       ∃ result p,
         (scanResult settings scannedImages foundImages document).1 = Some result ∧
         p ∈ result ∧ identity (image p) = identity imageData) ∧
  (otherChecksPass settings scannedImages imageData →
     ((passesFilters settings scannedImages imageData).1 = true ↔
      minWidth settings ≤ width imageData ∧ minHeight settings ≤ height imageData)) ∧
  (minWidth settings = 200 → minHeight settings = 200 →
     (width imageData = 150 → height imageData = 300 →
        (passesFilters settings scannedImages imageData).1 = false ∧
        ∀ foundImages document result,
          (scanResult settings scannedImages foundImages document).1 = Some result →
          ∀ p, p ∈ result → image p ≠ imageData) ∧
     (width imageData = 300 → height imageData = 150 →
        (passesFilters settings scannedImages imageData).1 = false) ∧
     (width imageData = 200 → height imageData = 200 →
        otherChecksPass settings scannedImages imageData →
        (passesFilters settings scannedImages imageData).1 = true ∧
        ∀ foundImages document,
          imageData ∈ foundImages ++ extractCanvasImages settings document →
          ∃ result p,
            (scanResult settings scannedImages foundImages document).1 = Some result ∧
            p ∈ result ∧ identity (image p) = identity imageData)).
Proof.
  split_and!.
  - apply passesFilters_too_small.
  - apply passesFilters_large_enough.
  - intros Hother. split.
    + intros Hpass.
      destruct (decide (width imageData < minWidth settings
                        ∨ height imageData < minHeight settings)) as [Hsmall|Hlarge]; [|lia].
      apply (passesFilters_too_small settings scannedImages) in Hsmall as [Heq _].
      rewrite Heq in Hpass. done.
    + intros [Hw Hh].
      by destruct (passesFilters_large_enough settings scannedImages imageData Hw Hh Hother)
        as [-> _].
  - intros HminW HminH. split_and!.
    + intros Hw Hh.
      destruct (passesFilters_too_small settings scannedImages imageData) as [-> Hscan];
        [lia|done].
    + intros Hw Hh.
      by destruct (passesFilters_too_small settings scannedImages imageData) as [-> _];
        [lia|].
    + intros Hw Hh Hother.
      destruct (passesFilters_large_enough settings scannedImages imageData) as [-> Hscan];
        [lia|lia|done|done].
Qed.

Lemma elem_of_omap_imap {A B} (f : nat → A → option B) (l : list A) (y : B) :
  y ∈ omap (λ x, x) (imap f l) → ∃ i x, l !! i = Some x ∧ f i x = Some y.
Proof.
  intros (o & [i Ho]%list_elem_of_lookup & Hy)%list_elem_of_omap. subst o.
  rewrite list_lookup_imap in Ho.
  destruct (l !! i) as [x|] eqn:Hx; [|done]. simpl in Ho.
  exists i, x. split; [done|]. by injection Ho.
Qed.

(** C10. A canvas, or a video, whose width equals [minWidth] or whose
    height equals [minHeight] yields no candidate: every candidate of type
    [canvas] or [video-frame] that the extraction emits is strictly larger
    than both minimums.  The general filter accepts a candidate whose
    dimensions equal the minimums. *)
Theorem C10_canvas_minimum_is_exclusive settings document :
  (∀ i canvas,
     canvases document !! i = Some canvas →
     canvasWidth canvas = minWidth settings ∨ canvasHeight canvas = minHeight settings →
     canvasImage settings i canvas = None) ∧
  (∀ i video,
     videos document !! i = Some video →
     videoWidth video = minWidth settings ∨ videoHeight video = minHeight settings →
     videoFrame settings i video = None) ∧
  (∀ c, c ∈ extractCanvasImages settings document →
        type c = "canvas" ∨ type c = "video-frame" →
        minWidth settings < width c ∧ minHeight settings < height c) ∧
  (∀ scannedImages imageData,
     width imageData = minWidth settings → height imageData = minHeight settings →
     passesFileTypeFilter settings imageData = true →
     isValidImageUrl (url imageData) = true →
     scannedImages !! generateImageKey imageData = None →
     (passesFilters settings scannedImages imageData).1 = true).
Proof.
  split_and!.
  - intros i canvas _ Hdim. unfold canvasImage.
    by rewrite bool_decide_eq_false_2 by lia.
  - intros i video _ Hdim. unfold videoFrame.
    by rewrite bool_decide_eq_false_2 by lia.
  - intros c. unfold extractCanvasImages. destruct (negb _); [by intros ?%elem_of_nil|].
    rewrite !elem_of_app.
    intros [(i & canvas & _ & Hc)%elem_of_omap_imap|
            [(bg & _ & Hc)%list_elem_of_omap|(i & video & _ & Hc)%elem_of_omap_imap]] Hty.
    + unfold canvasImage in Hc. case_bool_decide; [|done].
      destruct (toDataURL canvas); simplify_eq/=. lia.
    + unfold blobImage in Hc. destruct (_ && _); [|done].
      case_bool_decide; simplify_eq/=. by destruct Hty.
    + unfold videoFrame in Hc. case_bool_decide; [|done].
      destruct (frameDataURL video); simplify_eq/=. lia.
  - intros scannedImages imageData Hw Hh Htype Hvalid Hfresh.
    rewrite passesFilters_eq. unfold passesStateless.
    rewrite Htype, Hvalid, bool_decide_eq_false_2 by lia. simpl.
    rewrite decide_False; [done|]. rewrite Hfresh. by intros [? ?].
Qed.
End Browser.

(** *** A page *)

(** Stand-ins for the URL parser of the browser, good for the absolute
    [https] URLs of the examples: the origin of the page is
    [https://site.test]; the path of a URL starts at the third slash and
    stops before [?]. *)
Definition demoOriginHref (url : string) : option string :=
  Some ("https://site.test" +:+ url).

Fixpoint fromSlash (n : nat) (s : string) : option string :=
  match s with
  | EmptyString => None
  | String c s' =>
      if decide (c = "/"%char)
      then match n with O => Some s | S n' => fromSlash n' s' end
      else fromSlash n s'
  end.

Definition demoPathname (url : string) : option string :=
  if startsWith "blob:" url || startsWith "data:" url then Some (beforeFirst "?" url)
  else beforeFirst "?" <$> fromSlash 2 url.

Definition demoSettings : Settings :=
  {| fileTypes := Some {| jpg := true; png := true; webp := true; gif := true;
                          svg := false; blob := true |};
     minWidth := 200; minHeight := 200 |}.

Definition demoImage (url : string) (w h : Z) : ImageData :=
  {| url := url; alt := ""; width := w; height := h; type := "jpg";
     estimatedSize := inject_Z (w * h) * (1 # 2) |}.

(** One picture found twice, under two query strings, and once more at
    another size. *)
Definition demoFound : list ImageData :=
  [demoImage "https://site.test/img/a.jpg?v=1" 400 300;
   demoImage "https://site.test/img/a.jpg?v=2" 400 300;
   demoImage "https://site.test/img/a.jpg" 800 600].

Definition demoDocument : Document :=
  {| canvases := [{| canvasWidth := 200; canvasHeight := 300;
                     toDataURL := Some "data:image/png;base64,AAAA" |};
                  {| canvasWidth := 640; canvasHeight := 480;
                     toDataURL := Some "data:image/png;base64,BBBB" |}];
     backgrounds := [{| backgroundUrl := "blob:https://site.test/6f1c";
                        probedWidth := 200; probedHeight := 200 |}];
     videos := [{| videoWidth := 1280; videoHeight := 200;
                   frameDataURL := Some "data:image/png;base64,CCCC" |}] |}.

Lemma C6_dedup_by_identity_witness :
  ∃ result,
    (scanResult demoOriginHref demoPathname demoSettings ∅ demoFound demoDocument).1
    = Some result ∧
    ∃ i j a' b', i ≠ j ∧ result !! i = Some a' ∧ result !! j = Some b' ∧
      identity (image a') = identity (demoImage "https://site.test/img/a.jpg?v=2" 400 300) ∧
      identity (image b') = identity (demoImage "https://site.test/img/a.jpg" 800 600).
Proof.
  destruct (C6_dedup_by_identity demoOriginHref demoPathname demoSettings ∅ demoFound
              demoDocument) as (result & Hres & _ & Hdistinct & _).
  exists result. split; [done|].
  apply Hdistinct.
  - apply elem_of_app. left. apply list_elem_of_further, list_elem_of_here.
  - apply elem_of_app. left. do 2 apply list_elem_of_further. apply list_elem_of_here.
  - by vm_compute.
  - by vm_compute.
  - by vm_compute.
  - by vm_compute.
  - by vm_compute.
  - left. by vm_compute.
Defined.

Lemma C7_minimum_is_inclusive_witness :
  passesFilters demoOriginHref demoPathname demoSettings ∅
    (demoImage "https://site.test/img/b.jpg" 150 300) = (false, ∅) ∧
  passesFilters demoOriginHref demoPathname demoSettings ∅
    (demoImage "https://site.test/img/b.jpg" 300 150) = (false, ∅) ∧
  (passesFilters demoOriginHref demoPathname demoSettings ∅
     (demoImage "https://site.test/img/b.jpg" 200 200)).1 = true.
Proof.
  split_and!.
  - apply (proj1 (C7_minimum_is_inclusive demoOriginHref demoPathname demoSettings ∅
                    (demoImage "https://site.test/img/b.jpg" 150 300))).
    left. by vm_compute.
  - apply (proj1 (C7_minimum_is_inclusive demoOriginHref demoPathname demoSettings ∅
                    (demoImage "https://site.test/img/b.jpg" 300 150))).
    right. by vm_compute.
  - apply (proj1 (proj2 (proj2 (C7_minimum_is_inclusive demoOriginHref demoPathname
                                  demoSettings ∅
                                  (demoImage "https://site.test/img/b.jpg" 200 200))))).
    + split_and!; by vm_compute.
    + split; by vm_compute.
Defined.

Lemma C10_canvas_minimum_is_exclusive_witness :
  canvasImage demoSettings 0
    {| canvasWidth := 200; canvasHeight := 300;
       toDataURL := Some "data:image/png;base64,AAAA" |} = None ∧
  videoFrame demoSettings 0
    {| videoWidth := 1280; videoHeight := 200;
       frameDataURL := Some "data:image/png;base64,CCCC" |} = None ∧
  (passesFilters demoOriginHref demoPathname demoSettings ∅
     (demoImage "https://site.test/img/b.jpg" 200 200)).1 = true.
Proof.
  destruct (C10_canvas_minimum_is_exclusive demoOriginHref demoPathname demoSettings
              demoDocument) as (Hcanvas & Hvideo & _ & Hfilter).
  split_and!.
  - apply Hcanvas; [done|by left].
  - apply Hvideo; [done|by right].
  - apply Hfilter; by vm_compute.
Defined.

End Scanner.

(** ** The remote-URL resolver ([AdvancedImageExtractor.handleRemoteUrl]) *)
Module Resolver.
Import Str.

Record Blob := { blobType : string; blobSize : Z }.

(** The options that [handleRemoteUrl] reads. *)
Record Config := { useCorsProxy : bool; timeout : Z }.

(** What [handleRemoteUrl] returns; a field that the object literal lacks is
    [None]. *)
Record Descriptor := {
  url : string;
  originalUrl : option string;
  proxiedUrl : option string;
  blob : option Blob;
  mimeType : option string;
  size : option Z;
  type : string;
  downloadUrl : string;
  error : option string
}.

(** The extractor: its proxy list, the [corsBlocked] counter of
    [downloadStats], and the URLs handed to [fetchWithTimeout] so far. *)
Record Extractor := {
  corsProxyUrls : list string;
  corsBlocked : Z;
  requests : list string
}.

(** [new AdvancedImageExtractor()]. *)
Definition newExtractor : Extractor :=
  {| corsProxyUrls := ["https://api.allorigins.win/raw?url=";
                       "https://cors-anywhere.herokuapp.com/";
                       "https://proxy.cors.sh/"];
     corsBlocked := 0; requests := [] |}.

(** [encodeURIComponent] on a string of UTF-8 bytes: letters, digits and
    [- _ . ! ~ * ' ( )] stay, every other byte becomes [%XX]. *)
Definition unreserved (c : ascii) : bool :=
  let n := nat_of_ascii c in
  bool_decide ((65 ≤ n ∧ n ≤ 90) ∨ (97 ≤ n ∧ n ≤ 122) ∨ (48 ≤ n ∧ n ≤ 57))%nat
  || bool_decide (c ∈ ["-"; "_"; "."; "!"; "~"; "*"; "'"; "("; ")"]%char).

Definition hexDigit (n : nat) : ascii :=
  if decide (n < 10)%nat then ascii_of_nat (48 + n) else ascii_of_nat (55 + n).

Fixpoint encodeURIComponent (s : string) : string :=
  match s with
  | EmptyString => EmptyString
  | String c s' =>
      if unreserved c then String c (encodeURIComponent s')
      else String "%" (String (hexDigit (nat_of_ascii c / 16))
                         (String (hexDigit (nat_of_ascii c mod 16))
                            (encodeURIComponent s')))
  end.

Section Network.
(** What the body of a [try] block of [handleRemoteUrl] yields for the URL
    it fetches: the blob of the response and the object URL created for
    it, or the message of the error thrown ([fetchWithTimeout] rejects on
    a network or CORS error, on a status that is not ok and on a timeout).
    The URLs fetched during one call are distinct, so that a function of
    the URL describes any network. *)
Variable attempt : string → Z → Blob * string + string.

Definition fetched (url : string) (this : Extractor) : Extractor :=
  {| corsProxyUrls := corsProxyUrls this; corsBlocked := corsBlocked this;
     requests := requests this ++ [url] |}.

(** The [for] loop over the proxies: the descriptor of the first proxy
    that answers, or the last error. *)
Fixpoint tryProxies (url : string) (config : Config) (proxies : list string)
    (lastError : option string) (this : Extractor) :
    (Descriptor + option string) * Extractor :=
  match proxies with
  | [] => (inr lastError, this)
  | proxyUrl :: proxies =>
      let proxiedUrl := proxyUrl +:+ encodeURIComponent url in
      let this := fetched proxiedUrl this in
      match attempt proxiedUrl (timeout config) with
      | inl (blob, objectUrl) =>
          (inl {| url := url; originalUrl := Some url; proxiedUrl := Some proxiedUrl;
                  blob := Some blob; mimeType := Some (blobType blob);
                  size := Some (blobSize blob); type := "remote-proxy";
                  downloadUrl := objectUrl; error := None |}, this)
      | inr proxyError => tryProxies url config proxies (Some proxyError) this
      end
  end.

Definition handleRemoteUrl (url : string) (config : Config) (this : Extractor) :
    Descriptor * Extractor :=
  let this := fetched url this in
  match attempt url (timeout config) with
  | inl (blob, objectUrl) =>
      ({| url := url; originalUrl := None; proxiedUrl := None;
          blob := Some blob; mimeType := Some (blobType blob);
          size := Some (blobSize blob); type := "remote-direct";
          downloadUrl := objectUrl; error := None |}, this)
  | inr error =>
      let this := {| corsProxyUrls := corsProxyUrls this;
                     corsBlocked := corsBlocked this + 1;
                     requests := requests this |} in
      let '(found, this) :=
        if useCorsProxy config
        then tryProxies url config (corsProxyUrls this) (Some error) this
        else (inr (Some error), this) in
      match found with
      | inl descriptor => (descriptor, this)
      | inr lastError =>
          ({| url := url; originalUrl := None; proxiedUrl := None; blob := None;
              mimeType := None; size := None; type := "remote-fallback";
              downloadUrl := url; error := lastError |}, this)
      end
  end.

(** *** The order of the fetches *)

(** The fetch of [url] yields a blob. *)
Definition succeeds (config : Config) (url : string) : bool :=
  match attempt url (timeout config) with
  | inl _ => true
  | inr _ => false
  end.

(** The URLs of the proxies for [url], in the order of the proxy list. *)
Definition proxied (url : string) (proxies : list string) : list string :=
  (λ proxyUrl, proxyUrl +:+ encodeURIComponent url) <$> proxies.

(** The URLs that a call may fetch, in order: the URL itself, then, when
    [useCorsProxy] is set, the proxies. *)
Definition attempts (url : string) (config : Config) (this : Extractor) : list string :=
  url :: (if useCorsProxy config then proxied url (corsProxyUrls this) else []).

(** *** First success in list order *)

Lemma succeeds_inl config url ok :
  attempt url (timeout config) = inl ok → succeeds config url.
Proof. unfold succeeds. by intros ->. Qed.

Lemma succeeds_inr config url e :
  attempt url (timeout config) = inr e → ¬ succeeds config url.
Proof. unfold succeeds. intros ->. simpl. tauto. Qed.

Lemma tryProxies_spec url config proxies : ∀ lastError this,
  let '(found, this') := tryProxies url config proxies lastError this in
  corsProxyUrls this' = corsProxyUrls this ∧ corsBlocked this' = corsBlocked this ∧
  match list_find (succeeds config) (proxied url proxies) with
  | Some (i, u) =>
      ∃ blob objectUrl,
        attempt u (timeout config) = inl (blob, objectUrl) ∧
        requests this' = requests this ++ take (S i) (proxied url proxies) ∧
        found = inl {| url := url; originalUrl := Some url; proxiedUrl := Some u;
                       blob := Some blob; mimeType := Some (blobType blob);
                       size := Some (blobSize blob); type := "remote-proxy";
                       downloadUrl := objectUrl; error := None |}
  | None =>
      requests this' = requests this ++ proxied url proxies ∧
      ∃ e, found = inr e ∧ (proxies = [] → e = lastError) ∧ (is_Some lastError → is_Some e)
  end.
Proof.
  induction proxies as [|proxyUrl proxies IH]; intros lastError this; simpl.
  { rewrite app_nil_r. split_and!; try done. by exists lastError. }
  destruct (attempt (proxyUrl +:+ encodeURIComponent url) (timeout config))
    as [[blob objectUrl]|proxyError] eqn:Hattempt; simpl.
  - rewrite decide_True by by eapply succeeds_inl.
    simpl. split_and!; try done.
    exists blob, objectUrl. by rewrite take_0.
  - rewrite decide_False by by eapply succeeds_inr.
    specialize (IH (Some proxyError) (fetched (proxyUrl +:+ encodeURIComponent url) this)).
    destruct (tryProxies _ _ _ _ _) as [found this'].
    destruct IH as (Hproxies & Hblocked & IH). split_and!; [done|done|].
    destruct (list_find _ _) as [[i u]|]; simpl.
    + destruct IH as (blob & objectUrl & ? & Hreq & ?).
      exists blob, objectUrl. split_and!; [done| |done].
      rewrite Hreq. simpl. by rewrite <-app_assoc.
    + destruct IH as (Hreq & e & ? & _ & Hsome).
      split; [rewrite Hreq; simpl; by rewrite <-app_assoc|].
      exists e. split_and!; [done|done|]. intros _. by apply Hsome.
Qed.

(** C8, as the code has it.  The resolver fetches the URL itself; when that
    fails and [config.useCorsProxy] is set, it fetches the URL through the
    proxies in list order.  It returns the descriptor of the first fetch
    that succeeds, and fetches nothing after it; when every fetch fails,
    or the direct fetch fails and [useCorsProxy] is not set, it returns
    the fallback descriptor, whose download URL is the URL it was given.
    It never throws. *)
Theorem C8_direct_then_proxies url config this :
  let '(d, this') := handleRemoteUrl url config this in
  match list_find (succeeds config) (attempts url config this) with
  | Some (i, u) =>
      ∃ blob' objectUrl,
        attempt u (timeout config) = inl (blob', objectUrl) ∧
        requests this' = requests this ++ take (S i) (attempts url config this) ∧
        Resolver.url d = url ∧ blob d = Some blob' ∧ downloadUrl d = objectUrl ∧
        type d = match i with O => "remote-direct" | S _ => "remote-proxy" end ∧
        proxiedUrl d = match i with O => None | S _ => Some u end
  | None =>
      requests this' = requests this ++ attempts url config this ∧
      Resolver.url d = url ∧ blob d = None ∧ type d = "remote-fallback" ∧
      downloadUrl d = url ∧ is_Some (error d)
  end.
Proof.
  unfold handleRemoteUrl, attempts. simpl.
  destruct (attempt url (timeout config)) as [[blob' objectUrl]|e] eqn:Hdirect; simpl.
  { rewrite decide_True by by eapply succeeds_inl.
    simpl. exists blob', objectUrl. by rewrite take_0. }
  rewrite decide_False by by eapply succeeds_inr.
  destruct (useCorsProxy config); simpl.
  - pose proof (tryProxies_spec url config (corsProxyUrls this) (Some e)
                  {| corsProxyUrls := corsProxyUrls this;
                     corsBlocked := corsBlocked this + 1;
                     requests := requests this ++ [url] |}) as Hspec.
    destruct (tryProxies _ _ _ _ _) as [found this'].
    destruct Hspec as (_ & _ & Hspec). simpl in Hspec.
    destruct (list_find _ _) as [[i u]|]; simpl.
    + destruct Hspec as (blob' & objectUrl & ? & Hreq & ->).
      exists blob', objectUrl. split_and!; try done.
      rewrite Hreq. by rewrite <-app_assoc.
    + destruct Hspec as (Hreq & e' & -> & _ & Hsome). simpl.
      split_and!; try done; [|by apply Hsome].
      rewrite Hreq. by rewrite <-app_assoc.
  - by split_and!.
Qed.
End Network.

(** A network on which only the proxies answer. *)
Definition demoNetwork (url : string) (timeout : Z) : Blob * string + string :=
  if decide (url = "https://img.test/a.png") then inr "Failed to fetch"
  else inl ({| blobType := "image/png"; blobSize := 1024 |}, "blob:https://site.test/1").

(** With [useCorsProxy] unset, the direct fetch fails and no proxy is tried,
    although the first proxy would have answered. *)
Lemma C8_proxies_not_tried_when_disabled :
  let config := {| useCorsProxy := false; timeout := 30000 |} in
  let url := "https://img.test/a.png" in
  let result := handleRemoteUrl demoNetwork url config newExtractor in
  demoNetwork url 30000 = inr "Failed to fetch" ∧
  succeeds demoNetwork config
    ("https://api.allorigins.win/raw?url=" +:+ encodeURIComponent url) ∧
  type result.1 = "remote-fallback" ∧
  requests result.2 = [url].
Proof. by vm_compute. Qed.

End Resolver.
